(** * FindTriangles: a shallow embedding of [FindTriangles.cpp]

    The program finds the triangles formed by a set of line segments:
    [calc_intersection] intersects two bounded segments,
    [calc_intersections] records for every segment the distinct points
    where it meets the others, and [calc_triangles] walks those
    per-segment point sets looking for three segments that close a cycle.

    Numbers are modelled as the code has them.  The coordinates are C++
    [float]s, taken here as IEEE 754 binary32 values ([spec_float] with a
    24-bit significand and [emax = 128]); every arithmetic operation is
    rounded to nearest-even on its own (no fused multiply-add, no excess
    precision).  [abs] on a [float] is [std::abs], which clears the sign.
    [compare_tolerance] is a [double]; a [float] compared with it is
    first promoted to binary64, as C++ does.  Loop counters are C++
    [int]s whose bounds come from a container size by
    [static_cast<int>]; a vector indexed past its end is undefined
    behaviour in C++ and is an error ([None]) here. *)

From Stdlib Require Import ZArith Bool Lia List.
From Stdlib Require Import Floats.SpecFloat.
From stdpp Require Import base option list sorting.

Local Open Scope Z_scope.

(** ** Single and double precision numbers *)

Module Float32.

Definition prec : Z := 24.
Definition emax : Z := 128.

(** A C++ [float]. *)
Definition float : Type := spec_float.
(** A C++ [double]. *)
Definition double : Type := spec_float.

Definition add : float -> float -> float := SFadd prec emax.
Definition sub : float -> float -> float := SFsub prec emax.
Definition mul : float -> float -> float := SFmul prec emax.
Definition div : float -> float -> float := SFdiv prec emax.
Definition abs : float -> float := SFabs.
Definition opp : float -> float := SFopp.
Definition ltb : spec_float -> spec_float -> bool := SFltb.

(** Conversion of an [int] to [float], as in the comparisons [t < 0]
    and [t > 1] and in [point(0, 0)]. *)
Definition of_int (z : Z) : float := binary_normalize prec emax z 0 false.

(** Promotion of a [float] to [double]; it is exact. *)
Definition to_double (f : float) : double :=
  match f with
  | S754_finite s m e => binary_normalize 53 1024 (cond_Zopp s (Zpos m)) e s
  | _ => f
  end.

(** The binary64 value of the literal [.00001]:
    [5902958103587057 * 2^-69]. *)
Definition double_00001 : double :=
  S754_finite false 5902958103587057 (-69).

(** Equality up to the sign of zero: the relation under which the
    comparisons of IEEE 754 cannot tell two numbers apart. *)
Definition same (a b : float) : Prop :=
  match a, b with
  | S754_zero _, S754_zero _ => True
  | _, _ => a = b
  end.

End Float32.

Import Float32.

(** Margin of error for comparing floats. *)
Definition compare_tolerance : double := double_00001.

(** ** Geometry primitives *)

Record point : Type := Point { x : float; y : float }.

(** [point::operator==]: both coordinate differences are, in absolute
    value, strictly below the tolerance. *)
Definition point_eq (this other : point) : bool :=
  ltb (to_double (abs (sub (x this) (x other)))) compare_tolerance
  && ltb (to_double (abs (sub (y this) (y other)))) compare_tolerance.

Record line_segment : Type := LineSegment { ls_p1 : point; ls_p2 : point }.

(** The constructor [line_segment(a, b, c, d)]. *)
Definition line_segment4 (a b c d : float) : line_segment :=
  LineSegment (Point a b) (Point c d).

Record triangle : Type := Triangle { p1 : point; p2 : point; p3 : point }.

(** [find_point]: [std::find] with [operator==], the stored element on
    the left of the comparison. *)
Definition find_point (points : list point) (pt : point) : bool :=
  existsb (fun stored => point_eq stored pt) points.

(** ** Intersection of two segments *)

(** The three quantities of [calc_intersection], named as in the source. *)
Definition denominator (A B C D : point) : float :=
  sub (mul (sub (x A) (x B)) (sub (y C) (y D)))
      (mul (sub (y A) (y B)) (sub (x C) (x D))).

Definition param_t (A B C D : point) : float :=
  div (sub (mul (sub (x A) (x C)) (sub (y C) (y D)))
           (mul (sub (y A) (y C)) (sub (x C) (x D))))
      (denominator A B C D).

Definition param_u (A B C D : point) : float :=
  div (sub (mul (sub (x A) (x C)) (sub (y A) (y B)))
           (mul (sub (y A) (y C)) (sub (x A) (x B))))
      (denominator A B C D).

(** [calc_intersection(A, B, C, D, pt)].  The output parameter [pt] is
    threaded through: the function takes its old value and returns the
    boolean result together with its new value. *)
Definition calc_intersection (A B C D : point) (pt : point) : bool * point :=
  let pt := Point (of_int 0) (of_int 0) in
  let x1 := x A in
  let y1 := y A in
  let x2 := x B in
  let y2 := y B in
  let x3 := x C in
  let y3 := y C in
  let x4 := x D in
  let y4 := y D in
  let x1_x2 := sub x1 x2 in
  let x1_x3 := sub x1 x3 in
  let x2_x1 := sub x2 x1 in
  let x3_x4 := sub x3 x4 in
  let y1_y2 := sub y1 y2 in
  let y1_y3 := sub y1 y3 in
  let y2_y1 := sub y2 y1 in
  let y3_y4 := sub y3 y4 in
  let denominator := sub (mul x1_x2 y3_y4) (mul y1_y2 x3_x4) in
  if ltb (to_double (abs denominator)) compare_tolerance then (false, pt)
  else
    let t := div (sub (mul x1_x3 y3_y4) (mul y1_y3 x3_x4)) denominator in
    if ltb t (of_int 0) || ltb (of_int 1) t then (false, pt)
    else
      let u := div (sub (mul x1_x3 y1_y2) (mul y1_y3 x1_x2)) denominator in
      if ltb u (of_int 0) || ltb (of_int 1) u then (false, pt)
      else (true, Point (add x1 (mul t x2_x1)) (add y1 (mul t y2_y1))).

(** The overload on two line segments. *)
Definition calc_intersection_ls (ls1 ls2 : line_segment) (pt : point)
  : bool * point :=
  calc_intersection (ls_p1 ls1) (ls_p2 ls1) (ls_p1 ls2) (ls_p2 ls2) pt.

(** ** Loops and integer conversions *)

Definition INT_MAX : Z := 2147483647.

(** [static_cast<int>] of a container size: reduction modulo [2^32] into
    the range of a 32-bit signed integer. *)
Definition static_cast_int (size : nat) : Z :=
  (Z.of_nat size + 2 ^ 31) mod 2 ^ 32 - 2 ^ 31.

(** [for (auto i = lo; i < hi; ++i) body], the state threaded through
    the iterations.  The bound [hi] does not change while the loop runs
    in any loop of the program, and the counter stays below it, so the
    increment cannot overflow.  The bounds [size - 1] and
    [num_line_segments - 2] are computed in [Z]; they are within [int]
    for every size up to [INT_MAX]. *)
Fixpoint for_iter {St : Type} (n : nat) (i : Z) (body : Z -> St -> St)
  (s : St) : St :=
  match n with
  | O => s
  | S n' => for_iter n' (i + 1) body (body i s)
  end.

Definition for_loop {St : Type} (lo hi : Z) (body : Z -> St -> St)
  (s : St) : St :=
  for_iter (Z.to_nat (hi - lo)) lo body s.

(** [for (point& p : points) body]. *)
Definition for_each {A St : Type} (points : list A) (body : A -> St -> St)
  (s : St) : St :=
  foldl (fun s p => body p s) s points.

(** ** The intersection aggregator *)

(** [if (!find_point(intersects[i], pt)) intersects[i].push_back(pt);]
    Indexing a vector past its end is undefined in C++: the result is
    [None] there. *)
Definition push_back_if_absent (intersects : list (list point)) (i : Z)
  (pt : point) : option (list (list point)) :=
  row ← intersects !! Z.to_nat i;
  Some (if find_point row pt then intersects
        else <[Z.to_nat i := row ++ [pt]]> intersects).

(** The body of the inner loop of [calc_intersections]. *)
Definition intersect_pair (segments : list line_segment) (i j : Z)
  (intersects : list (list point)) : option (list (list point)) :=
  ls1 ← segments !! Z.to_nat i;
  ls2 ← segments !! Z.to_nat j;
  let '(found, intersect_pt) :=
    calc_intersection_ls ls1 ls2 (Point (of_int 0) (of_int 0)) in
  if found then
    intersects ← push_back_if_absent intersects i intersect_pt;
    push_back_if_absent intersects j intersect_pt
  else Some intersects.

(** [calc_intersections(segments, intersects)]; [intersects] is updated
    in place, so it is both an argument and the result. *)
Definition calc_intersections (segments : list line_segment)
  (intersects : list (list point)) : option (list (list point)) :=
  let size := static_cast_int (length segments) in
  for_loop 0 (size - 1) (fun i st =>
    for_loop (i + 1) size (fun j st =>
      st ≫= intersect_pair segments i j) st)
    (Some intersects).

(** ** The triangle enumerator *)

(** [intersects[i]] inside [calc_triangles]: every index used there is
    below [intersects.size()], the bound of the loops. *)
Definition points_of (intersects : list (list point)) (i : Z) : list point :=
  intersects !!! Z.to_nat i.

(** [calc_triangles(intersects, triangles)]: [triangles] is appended to
    in place. *)
Definition calc_triangles (intersects : list (list point))
  (triangles : list triangle) : list triangle :=
  let num_line_segments := static_cast_int (length intersects) in
  for_loop 0 (num_line_segments - 2) (fun segment_one_index =>
    for_each (points_of intersects segment_one_index) (fun start_point =>
      for_loop (segment_one_index + 1) (num_line_segments - 1)
        (fun segment_two_index triangles =>
          if negb (find_point (points_of intersects segment_two_index)
                     start_point)
          then triangles
          else
            for_each (points_of intersects segment_two_index)
              (fun middle_point triangles =>
                if point_eq middle_point start_point then triangles
                else
                  for_loop (segment_two_index + 1) num_line_segments
                    (fun segment_three_index triangles =>
                      if negb (find_point
                                 (points_of intersects segment_three_index)
                                 middle_point)
                      then triangles
                      else
                        for_each (points_of intersects segment_three_index)
                          (fun last_point triangles =>
                            if point_eq last_point middle_point
                               || negb (find_point
                                          (points_of intersects
                                             segment_one_index)
                                          last_point)
                            then triangles
                            else
                              triangles
                                ++ [Triangle start_point middle_point
                                      last_point])
                          triangles)
                    triangles)
              triangles)))
    triangles.

(** The overload [calc_triangles(segments, triangles)]: the whole
    pipeline.  It returns the [int] result and the final contents of
    [triangles]. *)
Definition calc_triangles_segments (segments : list line_segment)
  (triangles : list triangle) : option (Z * list triangle) :=
  let intersects := replicate (length segments) [] in
  intersects ← calc_intersections segments intersects;
  let triangles := calc_triangles intersects triangles in
  Some (static_cast_int (length triangles), triangles).

(** The segments of [main]. *)
Definition seg (a b c d : Z) : line_segment :=
  line_segment4 (of_int a) (of_int b) (of_int c) (of_int d).

Definition line_segments : list line_segment :=
  [ seg 5 1 9 9; seg 4 3 7 9; seg 3 5 5 9; seg 2 7 3 9;
    seg 5 1 1 9; seg 6 3 3 9; seg 7 5 5 9; seg 8 7 7 9;
    seg 4 3 6 3; seg 3 5 7 5; seg 2 7 8 7; seg 1 9 9 9 ].

(** ** Vocabulary of the claims and of their proofs *)

(** Segment [i]'s set contains a point approximately equal to [P]. *)
Definition contains (intersects : list (list point)) (i : Z) (P : point)
  : bool :=
  find_point (points_of intersects i) P.

(** A choice of three segments and of one position in each one's
    sequence of points. *)
Record cycle : Type :=
  Cycle { seg_i : Z; seg_j : Z; seg_k : Z; pos_P : nat; pos_Q : nat; pos_R : nat }.

(** The cycle condition of the enumerator, for the triangle [(P, Q, R)]
    read at the positions of [c]: [i < j < k]; [P] is in segment [i]'s set
    and segment [j]'s set contains a point approximately equal to it; [Q]
    is in segment [j]'s set, is not approximately equal to [P], and
    segment [k]'s set contains a point approximately equal to it; [R] is
    in segment [k]'s set, is not approximately equal to [Q], and segment
    [i]'s set contains a point approximately equal to it. *)
Definition closes (intersects : list (list point)) (c : cycle)
  (t : triangle) : Prop :=
  (0 <= seg_i c < seg_j c /\ seg_j c < seg_k c < Z.of_nat (length intersects))
  /\ points_of intersects (seg_i c) !! pos_P c = Some (p1 t)
  /\ contains intersects (seg_j c) (p1 t) = true
  /\ points_of intersects (seg_j c) !! pos_Q c = Some (p2 t)
  /\ point_eq (p2 t) (p1 t) = false
  /\ contains intersects (seg_k c) (p2 t) = true
  /\ points_of intersects (seg_k c) !! pos_R c = Some (p3 t)
  /\ point_eq (p3 t) (p2 t) = false
  /\ contains intersects (seg_i c) (p3 t) = true.

(** The points of a sequence with their positions. *)
Definition indexed {A : Type} (l : list A) : list (nat * A) := imap pair l.

(** The cycles found by the loops of [calc_triangles], in the order in
    which the loops meet them, each with the triangle emitted for it. *)
Definition cycles_from (intersects : list (list point))
  : list (cycle * triangle) :=
  let n := static_cast_int (length intersects) in
  i ← seqZ 0 (n - 2 - 0);
  aP ← indexed (points_of intersects i);
  j ← seqZ (i + 1) (n - 1 - (i + 1));
  if negb (contains intersects j aP.2) then []
  else
    bQ ← indexed (points_of intersects j);
    if point_eq bQ.2 aP.2 then []
    else
      k ← seqZ (j + 1) (n - (j + 1));
      if negb (contains intersects k bQ.2) then []
      else
        cR ← indexed (points_of intersects k);
        if point_eq cR.2 bQ.2 || negb (contains intersects i cR.2) then []
        else [(Cycle i j k aP.1 bQ.1 cR.1, Triangle aP.2 bQ.2 cR.2)].

(** The vertices of a triangle are pairwise distinct under the
    approximate-equality rule. *)
Definition pairwise_distinct (t : triangle) : bool :=
  negb (point_eq (p1 t) (p2 t)) && negb (point_eq (p2 t) (p3 t))
  && negb (point_eq (p1 t) (p3 t)).

(** The number of the segments [i], [j], [k] whose point set has [v] as
    a member within tolerance. *)
Definition segments_through (intersects : list (list point)) (i j k : Z)
  (v : point) : nat :=
  length (filter (fun s => contains intersects s v = true) [i; j; k]).

(** A triangle of the segments [i < j < k] as the specification wants
    it: pairwise distinct vertices, each on exactly two of the three. *)
Definition strict_triangle (intersects : list (list point)) (i j k : Z)
  (t : triangle) : Prop :=
  (0 <= i < j /\ j < k < Z.of_nat (length intersects))
  /\ pairwise_distinct t = true
  /\ segments_through intersects i j k (p1 t) = 2%nat
  /\ segments_through intersects i j k (p2 t) = 2%nat
  /\ segments_through intersects i j k (p3 t) = 2%nat.

(** Append a point to a sequence unless an approximately equal point is
    already present in it. *)
Definition add_unless_present (P : point) (row : list point) : list point :=
  if find_point row P then row else row ++ [P].

(** What the aggregator does for the pair [(i, j)], in the words of the
    specification: when the two segments intersect at [P], [P] is added
    to segment [i]'s sequence and to segment [j]'s sequence. *)
Definition record_pair (segments : list line_segment)
  (intersects : list (list point)) (ij : Z * Z) : list (list point) :=
  match segments !! Z.to_nat ij.1, segments !! Z.to_nat ij.2 with
  | Some ls1, Some ls2 =>
      match calc_intersection_ls ls1 ls2 (Point (of_int 0) (of_int 0)) with
      | (true, P) =>
          alter (add_unless_present P) (Z.to_nat ij.2)
            (alter (add_unless_present P) (Z.to_nat ij.1) intersects)
      | (false, _) => intersects
      end
  | _, _ => intersects
  end.

(** The pairs of segment indices in the order of the two loops of
    [calc_intersections]. *)
Definition index_pairs (n : Z) : list (Z * Z) :=
  i ← seqZ 0 (n - 1 - 0); j ← seqZ (i + 1) (n - (i + 1)); [(i, j)].

(** The points of a sequence are pairwise not approximately equal. *)
Definition distinct_points (row : list point) : Prop :=
  forall (a b : nat) (P Q : point),
    row !! a = Some P -> row !! b = Some Q -> a <> b -> point_eq P Q = false.

(** A parameter lies outside the closed interval [[0, 1]]: the test
    [t < 0 || t > 1] of [calc_intersection]. *)
Definition outside_unit (t : float) : bool :=
  ltb t (of_int 0) || ltb (of_int 1) t.

(** A parameter equals exactly 0 or exactly 1 (C++ [==] on floats). *)
Definition on_boundary (t : float) : bool :=
  SFeqb t (of_int 0) || SFeqb t (of_int 1).

(** The point [A + t (B - A)], computed as [calc_intersection] does. *)
Definition point_at (A B : point) (t : float) : point :=
  Point (add (x A) (mul t (sub (x B) (x A))))
        (add (y A) (mul t (sub (y B) (y A)))).

(** The point [(0, 0)] that [calc_intersection] first stores in [pt]. *)
Definition origin : point := Point (of_int 0) (of_int 0).

(** ** Sample inputs *)

Definition pt (a b : Z) : point := Point (of_int a) (of_int b).

(** Three point sets over the vertices [(0,0)], [(4,0)], [(0,3)], the
    first of which also holds [(4,0)]. *)
Definition shared_vertex_sets : list (list point) :=
  [ [pt 0 0; pt 0 3; pt 4 0]; [pt 0 0; pt 4 0]; [pt 4 0; pt 0 3] ].

(** Three segments along the sides of that triangle, each reaching
    past the vertices. *)
Definition three_sides : list line_segment :=
  [ seg 0 (-1) 0 4; seg (-1) 0 5 0; seg 8 (-3) (-4) 6 ].

(** Two segments that cross at [(1, 1)]. *)
Definition two_crossing : list line_segment :=
  [ seg 0 0 2 2; seg 0 2 2 0 ].

(** Three overlapping segments on the line [y = 0] and three segments
    across it, at [x = 4], [x = 8] and [x = 2]. *)
Definition overlapping_segments : list line_segment :=
  [ seg 0 0 6 0; seg 3 0 10 0; seg 0 0 10 0;
    seg 4 (-1) 4 1; seg 8 (-1) 8 1; seg 2 (-1) 2 1 ].

(** ** Further vocabulary *)

(** A number that is neither an infinity nor a NaN. *)
Definition is_finite (f : float) : bool :=
  match f with
  | S754_zero _ | S754_finite _ _ _ => true
  | S754_infinity _ | S754_nan => false
  end.

(** A point whose two coordinates are finite. *)
Definition finite_point (P : point) : bool :=
  is_finite (x P) && is_finite (y P).

(** [P] is the point that [calc_intersection] returns for segment [i]
    and another segment [k], called as [calc_intersections] calls it:
    the segment of lower index first. *)
Definition from_intersection (segments : list line_segment) (i : nat)
  (P : point) : Prop :=
  exists (k : nat) (ls_i ls_k : line_segment),
    segments !! i = Some ls_i /\ segments !! k = Some ls_k
    /\ ((i < k)%nat /\ calc_intersection_ls ls_i ls_k origin = (true, P)
        \/ (k < i)%nat /\ calc_intersection_ls ls_k ls_i origin = (true, P)).

(** The loop variables of [calc_triangles] at a cycle, outermost loop
    first. *)
Definition cycle_key (c : cycle) : list Z :=
  [ seg_i c; Z.of_nat (pos_P c); seg_j c; Z.of_nat (pos_Q c);
    seg_k c; Z.of_nat (pos_R c) ].

(** The lexicographic order on lists of integers. *)
Fixpoint lex_lt (k1 k2 : list Z) : Prop :=
  match k1, k2 with
  | a :: k1', b :: k2' => a < b \/ (a = b /\ lex_lt k1' k2')
  | _, _ => False
  end.

(** A cycle is met before another one by the nested loops. *)
Definition cycle_lt (c d : cycle) : Prop :=
  lex_lt (cycle_key c) (cycle_key d).

(** The two segments are not parallel: the cross product of their
    directions, as [calc_intersection] computes it, is not zero. *)
Definition nonparallel (A B C D : point) : bool :=
  negb (SFeqb (denominator A B C D) (of_int 0)).

(** The power of two [2^e], for an exponent in the normal range of
    single precision. *)
Definition two_pow (e : Z) : float := S754_finite false 8388608 (e - 23).

(** * Properties of the loops *)

Lemma for_iter_foldl {St : Type} (body : Z -> St -> St) (n : nat) (i : Z)
  (s : St) :
  for_iter n i body s = foldl (fun s i => body i s) s (seqZ i (Z.of_nat n)).
Proof.
  revert i s; induction n as [|n IH]; intros i s; [done|].
  rewrite seqZ_cons by lia. cbn [for_iter foldl]. rewrite IH.
  do 2 f_equal; lia.
Qed.

Lemma for_loop_foldl {St : Type} (body : Z -> St -> St) (lo hi : Z) (s : St) :
  for_loop lo hi body s = foldl (fun s i => body i s) s (seqZ lo (hi - lo)).
Proof.
  unfold for_loop. rewrite for_iter_foldl.
  destruct (Z_le_gt_dec (hi - lo) 0) as [Hle|Hgt].
  - rewrite (seqZ_nil _ (hi - lo)) by done.
    by rewrite seqZ_nil by lia.
  - by rewrite Z2Nat.id by lia.
Qed.

(** A loop whose body appends [f <$> g i] to the state appends the
    concatenation of these lists. *)
Lemma foldl_emits {A B X : Type} (f : B -> A) (g : X -> list B)
  (body : X -> list A -> list A) (l : list X) (s : list A) :
  (forall i s, i ∈ l -> body i s = s ++ (f <$> g i)) ->
  foldl (fun s i => body i s) s l = s ++ (f <$> (l ≫= g)).
Proof.
  revert s. induction l as [|i l IH]; intros s Hbody.
  - cbn. by rewrite app_nil_r.
  - cbn [foldl]. rewrite IH by (intros; apply Hbody; by right).
    rewrite Hbody by (by left).
    rewrite bind_cons, fmap_app. by rewrite app_assoc.
Qed.

Lemma for_loop_emits {A B : Type} (f : B -> A) (g : Z -> list B)
  (body : Z -> list A -> list A) (lo hi : Z) (s : list A) :
  (forall i s, lo <= i < hi -> body i s = s ++ (f <$> g i)) ->
  for_loop lo hi body s = s ++ (f <$> (seqZ lo (hi - lo) ≫= g)).
Proof.
  intros Hbody. rewrite for_loop_foldl. apply foldl_emits.
  intros i s' Hi%elem_of_seqZ. apply Hbody. lia.
Qed.

Lemma for_each_emits {A B P : Type} (f : B -> A) (g : nat * P -> list B)
  (body : P -> list A -> list A) (points : list P) (s : list A) :
  (forall a p s, points !! a = Some p -> body p s = s ++ (f <$> g (a, p))) ->
  for_each points body s = s ++ (f <$> (indexed points ≫= g)).
Proof.
  intros Hbody. unfold for_each, indexed.
  assert (Hfold : forall (h : nat -> nat) s,
    (forall a p s, points !! a = Some p ->
       body p s = s ++ (f <$> g (h a, p))) ->
    foldl (fun s p => body p s) s points
    = s ++ (f <$> (imap (fun a => pair (h a)) points ≫= g))).
  { clear Hbody s. induction points as [|p points IH]; intros h s Hbody.
    - cbn. by rewrite app_nil_r.
    - cbn [foldl imap]. rewrite bind_cons, fmap_app, app_assoc.
      rewrite <- (Hbody 0%nat p s) by done.
      apply (IH (h ∘ S)). intros a q s' Hq. by apply (Hbody (S a)). }
  by apply (Hfold id).
Qed.

Lemma foldl_bind {A X Y : Type} (f : A -> Y -> A) (g : X -> list Y)
  (l : list X) (s : A) :
  foldl f s (l ≫= g) = foldl (fun s i => foldl f s (g i)) s l.
Proof.
  revert s. induction l as [|i l IH]; intros s; [done|].
  by rewrite bind_cons, foldl_app, IH.
Qed.

Lemma foldl_pointwise {A X : Type} (f g : A -> X -> A) (l : list X) (s : A) :
  (forall s i, f s i = g s i) -> foldl f s l = foldl g s l.
Proof.
  intros Hfg. revert s. induction l as [|i l IH]; intros s; [done|].
  cbn. by rewrite Hfg, IH.
Qed.

(** * The triangle enumerator *)

(** [calc_triangles] appends, in order, the triangles of the cycles
    met by its loops. *)
Lemma calc_triangles_cycles (intersects : list (list point))
  (triangles : list triangle) :
  calc_triangles intersects triangles
  = triangles ++ (cycles_from intersects).*2.
Proof.
  unfold calc_triangles, cycles_from.
  apply for_loop_emits; intros i s _.
  apply for_each_emits; intros a P s1 _.
  apply for_loop_emits; intros j s2 _. cbn [fst snd].
  unfold contains.
  destruct (find_point (points_of intersects j) P); cbn [negb];
    [|by rewrite app_nil_r].
  apply for_each_emits; intros b Q s3 _. cbn [fst snd].
  destruct (point_eq Q P); [by rewrite app_nil_r|].
  apply for_loop_emits; intros k s4 _.
  destruct (find_point (points_of intersects k) Q); cbn [negb];
    [|by rewrite app_nil_r].
  apply for_each_emits; intros c R s5 _. cbn [fst snd].
  destruct (point_eq R Q || negb (find_point (points_of intersects i) R));
    [by rewrite app_nil_r|done].
Qed.

Lemma static_cast_int_le (size : nat) : static_cast_int size <= Z.of_nat size.
Proof.
  unfold static_cast_int.
  pose proof (Z.mod_le (Z.of_nat size + 2 ^ 31) (2 ^ 32)). lia.
Qed.

Lemma static_cast_int_fits (size : nat) :
  Z.of_nat size <= INT_MAX -> static_cast_int size = Z.of_nat size.
Proof.
  unfold static_cast_int, INT_MAX. intros Hfit.
  rewrite Z.mod_small; lia.
Qed.

(** The indices that [calc_triangles] uses are within the vector. *)
Lemma points_of_in_range (intersects : list (list point)) (i : Z) :
  0 <= i < static_cast_int (length intersects) ->
  intersects !! Z.to_nat i = Some (points_of intersects i).
Proof.
  intros Hi. pose proof (static_cast_int_le (length intersects)).
  apply list_lookup_lookup_total_lt. lia.
Qed.

Lemma elem_of_indexed {A : Type} (l : list A) (a : nat) (p : A) :
  (a, p) ∈ indexed l <-> l !! a = Some p.
Proof.
  unfold indexed. rewrite elem_of_lookup_imap. split.
  - by intros (i & q & [= -> ->] & Hq).
  - intros Hp. by exists a, p.
Qed.

(** Every cycle met by the loops satisfies the cycle condition. *)
Lemma cycles_from_closes (intersects : list (list point)) (c : cycle)
  (t : triangle) :
  (c, t) ∈ cycles_from intersects -> closes intersects c t.
Proof.
  unfold cycles_from.
  pose proof (static_cast_int_le (length intersects)) as Hn.
  intros (i & H & Hi%elem_of_seqZ)%list_elem_of_bind.
  apply list_elem_of_bind in H as ([a P] & H & HP%elem_of_indexed).
  apply list_elem_of_bind in H as (j & H & Hj%elem_of_seqZ).
  cbn [fst snd] in H.
  destruct (contains intersects j P) eqn:HjP; cbn [negb] in H;
    [|by apply elem_of_nil in H].
  apply list_elem_of_bind in H as ([b Q] & H & HQ%elem_of_indexed).
  cbn [fst snd] in H.
  destruct (point_eq Q P) eqn:HQP; [by apply elem_of_nil in H|].
  apply list_elem_of_bind in H as (k & H & Hk%elem_of_seqZ).
  destruct (contains intersects k Q) eqn:HkQ; cbn [negb] in H;
    [|by apply elem_of_nil in H].
  apply list_elem_of_bind in H as ([d R] & H & HR%elem_of_indexed).
  cbn [fst snd] in H.
  destruct (point_eq R Q) eqn:HRQ; [by apply elem_of_nil in H|].
  destruct (contains intersects i R) eqn:HiR; cbn [negb orb] in H;
    [|by apply elem_of_nil in H].
  apply list_elem_of_singleton in H as [= -> ->].
  unfold closes; cbn. repeat split; (done || lia).
Qed.

(** Conversely, every cycle is met, provided the number of segments
    fits in an [int]. *)
Lemma closes_cycles_from (intersects : list (list point)) (c : cycle)
  (t : triangle) :
  Z.of_nat (length intersects) <= INT_MAX ->
  closes intersects c t -> (c, t) ∈ cycles_from intersects.
Proof.
  intros Hfit%static_cast_int_fits.
  destruct c as [i j k a b d], t as [P Q R]. unfold closes; cbn.
  intros (Hijk & HP & HjP & HQ & HQP & HkQ & HR & HRQ & HiR).
  unfold cycles_from. rewrite Hfit.
  apply list_elem_of_bind. exists i. split; [|apply elem_of_seqZ; lia].
  apply list_elem_of_bind. exists (a, P). split; [|by apply elem_of_indexed].
  apply list_elem_of_bind. exists j. split; [|apply elem_of_seqZ; lia].
  cbn [fst snd]. rewrite HjP; cbn [negb].
  apply list_elem_of_bind. exists (b, Q). split; [|by apply elem_of_indexed].
  cbn [fst snd]. rewrite HQP.
  apply list_elem_of_bind. exists k. split; [|apply elem_of_seqZ; lia].
  rewrite HkQ; cbn [negb].
  apply list_elem_of_bind. exists (d, R). split; [|by apply elem_of_indexed].
  cbn [fst snd]. rewrite HRQ, HiR; cbn [negb orb].
  by apply list_elem_of_singleton.
Qed.

(** A concatenation of keyed lists has distinct keys when the pieces
    have, and every key tells which piece it belongs to. *)
Lemma NoDup_bind_keys {X T K V : Type} (tag : X -> T) (proj : K -> T)
  (f : X -> list (K * V)) (l : list X) :
  NoDup (tag <$> l) ->
  (forall i, i ∈ l -> NoDup (f i).*1) ->
  (forall i, i ∈ l -> Forall (fun kv => proj kv.1 = tag i) (f i)) ->
  NoDup (l ≫= f).*1.
Proof.
  induction l as [|i l IH]; intros Hl Hpiece Hkey; [constructor|].
  rewrite bind_cons, fmap_app. rewrite fmap_cons in Hl.
  apply NoDup_cons in Hl as [Hi Hl].
  apply NoDup_app. split_and!.
  - apply Hpiece. by left.
  - intros k ([k1 v1] & -> & Hk1)%list_elem_of_fmap
             ([k2 v2] & Heq & Hk2)%list_elem_of_fmap.
    cbn in Heq; subst k2.
    apply list_elem_of_bind in Hk2 as (i' & Hk2 & Hi').
    apply Hi, list_elem_of_fmap. exists i'. split; [|done].
    assert (Hin : i ∈ i :: l) by (by left).
    pose proof (proj1 (Forall_forall _ _) (Hkey i Hin) _ Hk1) as E1.
    assert (Hin' : i' ∈ i :: l) by (by right).
    pose proof (proj1 (Forall_forall _ _) (Hkey i' Hin') _ Hk2) as E2.
    cbn in E1, E2. congruence.
  - apply IH; [done| |]; intros; [apply Hpiece|apply Hkey]; by right.
Qed.

Lemma NoDup_indexed_positions {A : Type} (l : list A) :
  NoDup (fst <$> indexed l).
Proof.
  unfold indexed. rewrite fmap_imap.
  rewrite (imap_ext _ (fun a _ => id a)) by done.
  rewrite (imap_seq_0 l id), list_fmap_id. apply NoDup_seq.
Qed.

Ltac cycle_keys :=
  repeat first
    [ apply Forall_nil_2
    | apply Forall_singleton; reflexivity
    | apply Forall_bind, Forall_forall; intros ? _; cbn [compose]
    | match goal with
      | |- Forall _ (if ?c then _ else _) => destruct c
      end ].

(** No cycle is met twice. *)
Lemma NoDup_cycles_from (intersects : list (list point)) :
  NoDup (cycles_from intersects).*1.
Proof.
  unfold cycles_from.
  apply (NoDup_bind_keys id seg_i);
    [rewrite list_fmap_id; apply NoDup_seqZ| |intros; cycle_keys].
  intros i _.
  apply (NoDup_bind_keys fst pos_P);
    [apply NoDup_indexed_positions| |intros; cycle_keys].
  intros [a P] _.
  apply (NoDup_bind_keys id seg_j);
    [rewrite list_fmap_id; apply NoDup_seqZ| |intros; cycle_keys].
  intros j _. destruct (negb _); [constructor|].
  apply (NoDup_bind_keys fst pos_Q);
    [apply NoDup_indexed_positions| |intros; cycle_keys].
  intros [b Q] _. destruct (point_eq _ _); [constructor|].
  apply (NoDup_bind_keys id seg_k);
    [rewrite list_fmap_id; apply NoDup_seqZ| |intros; cycle_keys].
  intros k _. destruct (negb _); [constructor|].
  apply (NoDup_bind_keys fst pos_R);
    [apply NoDup_indexed_positions| |intros; cycle_keys].
  intros [d R] _. destruct (_ || _); [constructor|]. apply NoDup_singleton.
Qed.

(** * Facts of single precision arithmetic *)

Module Float32Facts.

Lemma same_refl (a : float) : same a a.
Proof. by destruct a. Qed.

Lemma same_trans (a b c : float) : same a b -> same b c -> same a c.
Proof. destruct a, b, c; cbn; congruence. Qed.

Lemma opp_involutive (a : float) : opp (opp a) = a.
Proof. destruct a; cbn; by rewrite ?negb_involutive. Qed.

Lemma abs_same (a b : float) : same a b -> abs a = abs b.
Proof. destruct a, b; cbn; congruence. Qed.

Lemma abs_opp (a : float) : abs (opp a) = abs a.
Proof. by destruct a. Qed.

(** The sign given to a rounding ends up on its result and nowhere
    else. *)
Lemma binary_round_aux_negb (s : bool) (m e : Z) (l : location) :
  binary_round_aux prec emax (negb s) m e l
  = opp (binary_round_aux prec emax s m e l).
Proof.
  unfold binary_round_aux.
  destruct (shr_fexp prec emax m e l) as [mrs' e'].
  destruct (shr_fexp prec emax _ e' loc_Exact) as [mrs'' e''].
  destruct (shr_m mrs''); [done| |done].
  by destruct (e'' <=? emax - prec).
Qed.

Lemma binary_round_negb (s : bool) (m : positive) (e : Z) :
  binary_round prec emax (negb s) m e = opp (binary_round prec emax s m e).
Proof.
  unfold binary_round. destruct (shl_align m e _) as [mz ez].
  apply binary_round_aux_negb.
Qed.

Lemma binary_normalize_opp (m e : Z) :
  same (binary_normalize prec emax (- m) e false)
       (opp (binary_normalize prec emax m e false)).
Proof.
  destruct m as [|m|m]; [done| |].
  - change (same (binary_round prec emax (negb false) m e)
                 (opp (binary_round prec emax false m e))).
    rewrite binary_round_negb. apply same_refl.
  - change (same (binary_round prec emax false m e)
                 (opp (binary_round prec emax (negb false) m e))).
    rewrite binary_round_negb, opp_involutive. apply same_refl.
Qed.

(** [b - a] is the opposite of [a - b]. *)
Lemma sub_antisym (a b : float) : same (sub b a) (opp (sub a b)).
Proof.
  destruct a as [sa|sa| |sa ma ea], b as [sb|sb| |sb mb eb];
    try (by destruct sa, sb); try (by destruct sa); try (by destruct sb);
    try done.
  all: try (cbn; by rewrite ?negb_involutive).
  unfold sub, SFsub. rewrite (Z.min_comm eb ea).
  set (u := cond_Zopp sa _). set (v := cond_Zopp sb _).
  replace (v - u) with (- (u - v)) by lia.
  apply binary_normalize_opp.
Qed.

Lemma abs_sub_comm (a b : float) : abs (sub a b) = abs (sub b a).
Proof.
  rewrite (abs_same _ _ (sub_antisym b a)). by rewrite abs_opp.
Qed.

Lemma mul_comm (a b : float) : mul a b = mul b a.
Proof.
  destruct a as [sa|sa| |sa ma ea], b as [sb|sb| |sb mb eb];
    try (cbn; by rewrite ?(xorb_comm sb sa)).
  unfold mul, SFmul.
  by rewrite (xorb_comm sb sa), (Pos.mul_comm mb ma), (Z.add_comm eb ea).
Qed.

Lemma mul_opp_l (a b : float) : mul (opp a) b = opp (mul a b).
Proof.
  destruct a as [sa|sa| |sa ma ea], b as [sb|sb| |sb mb eb];
    try (cbn; by rewrite <- ?negb_xorb_l).
  unfold mul, opp, SFmul, SFopp. rewrite <- negb_xorb_l.
  apply binary_round_aux_negb.
Qed.

Lemma mul_same_l (a a' b : float) : same a a' -> same (mul a b) (mul a' b).
Proof.
  intros E. destruct a, a'; cbn in E; try done;
    try (simplify_eq; apply same_refl).
  by destruct b.
Qed.

Lemma sub_same (a a' b b' : float) :
  same a a' -> same b b' -> same (sub a b) (sub a' b').
Proof.
  intros Ha Hb.
  destruct a as [sa|sa| |sa ma ea], a' as [sa'|sa'| |sa' ma' ea'];
    cbn in Ha; try done;
    destruct b as [sb|sb| |sb mb eb], b' as [sb'|sb'| |sb' mb' eb'];
    cbn in Hb; try done;
    try (simplify_eq; apply same_refl);
    try (by destruct sa, sa', sb, sb'); try (by simplify_eq).
Qed.

Lemma sub_opp_opp (a b : float) :
  same (sub (opp a) (opp b)) (opp (sub a b)).
Proof.
  destruct a as [sa|sa| |sa ma ea], b as [sb|sb| |sb mb eb];
    try (by destruct sa, sb); try (by destruct sa); try (by destruct sb);
    try done.
  unfold sub, opp, SFsub, SFopp.
  set (u := fst (shl_align ma ea _)). set (v := fst (shl_align mb eb _)).
  replace (cond_Zopp (negb sa) (Z.pos u) - cond_Zopp (negb sb) (Z.pos v))
    with (- (cond_Zopp sa (Z.pos u) - cond_Zopp sb (Z.pos v)))
    by (destruct sa, sb; cbn [cond_Zopp negb]; lia).
  apply binary_normalize_opp.
Qed.

Lemma div_opp_opp (a b : float) : div (opp a) (opp b) = div a b.
Proof.
  destruct a as [sa|sa| |sa ma ea], b as [sb|sb| |sb mb eb];
    cbn; by rewrite <- ?negb_xorb_l, <- ?negb_xorb_r, ?negb_involutive.
Qed.

Lemma div_same_l (a a' d : float) : same a a' -> same (div a d) (div a' d).
Proof.
  intros E. destruct a, a'; cbn in E; try done;
    try (simplify_eq; apply same_refl).
  by destruct d.
Qed.

Lemma ltb_same (a a' b b' : float) :
  same a a' -> same b b' -> ltb a b = ltb a' b'.
Proof.
  intros Ha Hb.
  destruct a, a'; cbn in Ha; try done;
    destruct b, b'; cbn in Hb; try done; by simplify_eq.
Qed.

(** A number that is not below the tolerance in absolute value is not
    a zero, so that [same] is plain equality on it. *)
Lemma same_not_small (d d' : float) :
  ltb (to_double (abs d)) double_00001 = false -> same d' d -> d' = d.
Proof. destruct d as [sd|sd| |sd md ed], d'; cbn; try done. Qed.

(** The comparisons with an [int] constant. *)
Lemma eqb_zero_ltb (t : float) :
  SFeqb t (of_int 0) = true ->
  ltb t (of_int 0) = false /\ ltb (of_int 1) t = false.
Proof. by destruct t as [s|[]| |[] m e]. Qed.

Lemma eqb_one_ltb (t : float) :
  SFeqb t (of_int 1) = true ->
  ltb t (of_int 0) = false /\ ltb (of_int 1) t = false.
Proof.
  destruct t as [s|[]| |[] m e]; try done.
  change (of_int 1) with (S754_finite false 8388608 (-23)).
  intros Heq.
  assert (e = -23 /\ m = 8388608%positive) as [-> ->]; [|done].
  unfold SFeqb in Heq. cbn [SFcompare] in Heq.
  destruct (e ?= -23) eqn:He; try done.
  destruct (Pos.compare_cont Eq m 8388608) eqn:Hm; try done.
  split; [by apply Z.compare_eq|by apply Pos.compare_eq].
Qed.

End Float32Facts.

(** * Approximate equality and membership *)

Lemma point_eq_sym (P Q : point) : point_eq P Q = point_eq Q P.
Proof.
  unfold point_eq.
  by rewrite (Float32Facts.abs_sub_comm (x P)),
             (Float32Facts.abs_sub_comm (y P)).
Qed.

Lemma find_point_true (row : list point) (P : point) :
  find_point row P = true
  <-> exists (a : nat) (Q : point), row !! a = Some Q /\ point_eq Q P = true.
Proof.
  unfold find_point. rewrite existsb_exists. split.
  - intros (Q & HQ%list_elem_of_In%list_elem_of_lookup & HQP).
    destruct HQ as [a Ha]. by exists a, Q.
  - intros (a & Q & Ha & HQP). exists Q. split; [|done].
    apply list_elem_of_In, list_elem_of_lookup. by exists a.
Qed.

Lemma find_point_false (row : list point) (P : point) :
  find_point row P = false ->
  forall (a : nat) (Q : point), row !! a = Some Q -> point_eq Q P = false.
Proof.
  intros Hfind a Q Ha. destruct (point_eq Q P) eqn:HQP; [|done].
  rewrite <- Hfind. symmetry. apply find_point_true. by exists a, Q.
Qed.

(** * The intersection aggregator *)

Lemma distinct_points_nil : distinct_points [].
Proof. intros a b P Q Ha. by rewrite lookup_nil in Ha. Qed.

Lemma add_unless_present_distinct (P : point) (row : list point) :
  distinct_points row -> distinct_points (add_unless_present P row).
Proof.
  unfold add_unless_present. intros Hrow.
  destruct (find_point row P) eqn:Hfind; [done|].
  pose proof (find_point_false _ _ Hfind) as Hnew.
  intros a b Pa Pb Ha Hb Hab.
  apply lookup_snoc_Some in Ha as [[Hla Ha]|[Hla <-]];
    apply lookup_snoc_Some in Hb as [[Hlb Hb]|[Hlb <-]].
  - by apply (Hrow a b).
  - by apply (Hnew a).
  - rewrite point_eq_sym. by apply (Hnew b).
  - lia.
Qed.

(** The statement [if (!find_point(intersects[i], pt))
    intersects[i].push_back(pt);] on a valid index. *)
Lemma push_back_if_absent_alter (intersects : list (list point)) (i : Z)
  (pt : point) :
  (Z.to_nat i < length intersects)%nat ->
  push_back_if_absent intersects i pt
  = Some (alter (add_unless_present pt) (Z.to_nat i) intersects).
Proof.
  intros [row Hrow]%lookup_lt_is_Some. unfold push_back_if_absent.
  rewrite Hrow; cbn. f_equal. apply list_eq; intros k.
  rewrite list_lookup_alter. unfold add_unless_present.
  destruct (decide (Z.to_nat i = k)) as [<-|Hk].
  - rewrite Hrow; cbn. destruct (find_point row pt); [done|].
    by rewrite list_lookup_insert_eq by (by apply lookup_lt_is_Some).
  - destruct (find_point row pt); [done|].
    by rewrite list_lookup_insert_ne.
Qed.

Section Aggregator.

Variable segments : list line_segment.

Lemma length_record_pair (intersects : list (list point)) (ij : Z * Z) :
  length (record_pair segments intersects ij) = length intersects.
Proof.
  unfold record_pair.
  destruct (segments !! Z.to_nat ij.1), (segments !! Z.to_nat ij.2);
    try done.
  destruct (calc_intersection_ls _ _ _) as [[] P]; [|done].
  by rewrite !length_alter.
Qed.

Lemma record_pair_distinct (intersects : list (list point)) (ij : Z * Z) :
  Forall distinct_points intersects ->
  Forall distinct_points (record_pair segments intersects ij).
Proof.
  intros Hall. unfold record_pair.
  destruct (segments !! Z.to_nat ij.1), (segments !! Z.to_nat ij.2);
    try done.
  destruct (calc_intersection_ls _ _ _) as [[] P]; [|done].
  do 2 (apply Forall_alter;
        [|intros row _; apply add_unless_present_distinct]); done.
Qed.

(** On indices within both vectors the loop body of
    [calc_intersections] does what [record_pair] says. *)
Lemma intersect_pair_record (i j : Z) (intersects : list (list point)) :
  (length segments <= length intersects)%nat ->
  0 <= i < Z.of_nat (length segments) ->
  0 <= j < Z.of_nat (length segments) ->
  intersect_pair segments i j intersects
  = Some (record_pair segments intersects (i, j)).
Proof.
  intros Hlen Hi Hj. unfold intersect_pair, record_pair. cbn [fst snd].
  destruct (lookup_lt_is_Some_2 segments (Z.to_nat i)) as [ls1 ->]; [lia|].
  destruct (lookup_lt_is_Some_2 segments (Z.to_nat j)) as [ls2 ->]; [lia|].
  cbn. destruct (calc_intersection_ls _ _ _) as [[] P]; [|done].
  rewrite push_back_if_absent_alter by lia. cbn.
  rewrite push_back_if_absent_alter by (rewrite length_alter; lia). done.
Qed.

Lemma elem_of_index_pairs (n i j : Z) :
  (i, j) ∈ index_pairs n <-> 0 <= i < j /\ j < n.
Proof.
  unfold index_pairs. rewrite list_elem_of_bind. split.
  - intros (i' & (j' & Hij%list_elem_of_singleton & Hj%elem_of_seqZ)%list_elem_of_bind
              & Hi%elem_of_seqZ).
    injection Hij as -> ->. lia.
  - intros Hij. exists i. split; [|apply elem_of_seqZ; lia].
    apply list_elem_of_bind. exists j.
    split; [by apply list_elem_of_singleton|apply elem_of_seqZ; lia].
Qed.

Lemma NoDup_index_pairs (n : Z) : NoDup (index_pairs n).
Proof.
  unfold index_pairs. apply NoDup_bind; [| |apply NoDup_seqZ].
  - intros i1 i2 [i j] _ _
      (j1 & [= -> ->]%list_elem_of_singleton & _)%list_elem_of_bind
      (j2 & [= -> _]%list_elem_of_singleton & _)%list_elem_of_bind.
    done.
  - intros i _. apply NoDup_bind; [| |apply NoDup_seqZ].
    + intros j1 j2 ij _ _ ->%list_elem_of_singleton
        [= ->]%list_elem_of_singleton. done.
    + intros j _. apply NoDup_singleton.
Qed.

(** The two loops of [calc_intersections] visit the pairs of
    [index_pairs], in that order. *)
Lemma calc_intersections_pairs (intersects : list (list point)) :
  calc_intersections segments intersects
  = foldl (fun st ij => st ≫= intersect_pair segments ij.1 ij.2)
      (Some intersects) (index_pairs (static_cast_int (length segments))).
Proof.
  unfold calc_intersections, index_pairs.
  rewrite for_loop_foldl, foldl_bind.
  apply foldl_pointwise. intros st i.
  rewrite for_loop_foldl, foldl_bind. done.
Qed.

(** With [intersects] at least as long as [segments], every access is
    within bounds and the aggregator is the fold of [record_pair]. *)
Lemma foldl_intersect_pair (pairs : list (Z * Z))
  (intersects : list (list point)) :
  (length segments <= length intersects)%nat ->
  (forall i j, (i, j) ∈ pairs ->
     0 <= i < Z.of_nat (length segments)
     /\ 0 <= j < Z.of_nat (length segments)) ->
  foldl (fun st ij => st ≫= intersect_pair segments ij.1 ij.2)
    (Some intersects) pairs
  = Some (foldl (record_pair segments) intersects pairs).
Proof.
  revert intersects.
  induction pairs as [|[i j] pairs IH]; intros intersects Hlen Hin; [done|].
  cbn [foldl fst snd mbind option_bind].
  destruct (Hin i j) as [Hi Hj]; [by left|].
  rewrite intersect_pair_record by done.
  apply IH; [by rewrite length_record_pair|].
  intros i' j' Hij'. apply Hin. by right.
Qed.

Lemma calc_intersections_record (intersects : list (list point)) :
  (length segments <= length intersects)%nat ->
  calc_intersections segments intersects
  = Some (foldl (record_pair segments) intersects
            (index_pairs (static_cast_int (length segments)))).
Proof.
  intros Hlen. rewrite calc_intersections_pairs.
  apply foldl_intersect_pair; [done|].
  intros i j Hij%elem_of_index_pairs.
  pose proof (static_cast_int_le (length segments)). lia.
Qed.

Lemma length_foldl_record_pair (pairs : list (Z * Z)) (intersects : list (list point)) :
  length (foldl (record_pair segments) intersects pairs) = length intersects.
Proof.
  revert intersects. induction pairs as [|ij pairs IH]; intros v; [done|].
  cbn [foldl]. by rewrite IH, length_record_pair.
Qed.

Lemma foldl_record_pair_distinct (pairs : list (Z * Z)) (intersects : list (list point)) :
  Forall distinct_points intersects ->
  Forall distinct_points (foldl (record_pair segments) intersects pairs).
Proof.
  revert intersects. induction pairs as [|ij pairs IH]; intros v Hv; [done|].
  cbn [foldl]. by apply IH, record_pair_distinct.
Qed.

End Aggregator.

(** * The claims about the triangle enumerator *)

(** C1, as stated, fails.  On [shared_vertex_sets] the enumerator emits
    the triangle [(0,0), (4,0), (0,3)], whose vertices are pairwise
    distinct, but the vertex [(4,0)] is a member of all three point
    sets, not of exactly two; so no choice of segments [i < j < k]
    makes the triangle one with each vertex on exactly two of them. *)
Lemma shared_vertex_not_strict :
  Triangle (pt 0 0) (pt 4 0) (pt 0 3) ∈ calc_triangles shared_vertex_sets []
  /\ forall i j k : Z,
       ~ strict_triangle shared_vertex_sets i j k
           (Triangle (pt 0 0) (pt 4 0) (pt 0 3)).
Proof.
  split.
  - vm_compute. by left.
  - intros i j k ((Hij & Hjk) & _ & _ & HQ & _).
    cbn [length shared_vertex_sets] in Hjk.
    assert (i = 0) as -> by lia. assert (j = 1) as -> by lia.
    assert (k = 2) as -> by lia.
    vm_compute in HQ. discriminate.
Qed.

(** C1, amended: every triangle [(P, Q, R)] that [calc_triangles] adds
    comes from three segments [i < j < k] such that [P] is stored in
    segment [i]'s set and segment [j]'s set contains a point
    approximately equal to it, [Q] is stored in segment [j]'s set and
    segment [k]'s set contains a point approximately equal to it, [R] is
    stored in segment [k]'s set and segment [i]'s set contains a point
    approximately equal to it, and neither [P] and [Q] nor [Q] and [R]
    are approximately equal.  So each vertex lies on at least the two
    segments that meet there. *)
Theorem calc_triangles_cycle_valid (intersects : list (list point))
  (triangles : list triangle) (t : triangle) :
  t ∈ calc_triangles intersects triangles ->
  t ∈ triangles
  \/ exists i j k : Z,
       (0 <= i < j /\ j < k < Z.of_nat (length intersects))
       /\ (p1 t ∈ points_of intersects i /\ contains intersects j (p1 t) = true)
       /\ (p2 t ∈ points_of intersects j /\ contains intersects k (p2 t) = true)
       /\ (p3 t ∈ points_of intersects k /\ contains intersects i (p3 t) = true)
       /\ point_eq (p1 t) (p2 t) = false
       /\ point_eq (p2 t) (p3 t) = false.
Proof.
  rewrite calc_triangles_cycles.
  intros [Hold|Hnew]%elem_of_app; [by left|right].
  apply list_elem_of_fmap in Hnew as ([c t'] & -> & Hc%cycles_from_closes).
  destruct Hc as (Hijk & HP & HjP & HQ & HQP & HkQ & HR & HRQ & HiR).
  cbn [snd] in *.
  exists (seg_i c), (seg_j c), (seg_k c).
  rewrite point_eq_sym in HQP, HRQ.
  apply list_elem_of_lookup_2 in HP, HQ, HR.
  exact (conj Hijk (conj (conj HP HjP) (conj (conj HQ HkQ)
           (conj (conj HR HiR) (conj HQP HRQ))))).
Qed.

Lemma calc_triangles_cycle_valid_witness :
  Triangle (pt 0 0) (pt 4 0) (pt 0 3) ∈ @nil triangle
  \/ exists i j k : Z,
       (0 <= i < j /\ j < k < 3)
       /\ (pt 0 0 ∈ points_of shared_vertex_sets i
           /\ contains shared_vertex_sets j (pt 0 0) = true)
       /\ (pt 4 0 ∈ points_of shared_vertex_sets j
           /\ contains shared_vertex_sets k (pt 4 0) = true)
       /\ (pt 0 3 ∈ points_of shared_vertex_sets k
           /\ contains shared_vertex_sets i (pt 0 3) = true)
       /\ point_eq (pt 0 0) (pt 4 0) = false
       /\ point_eq (pt 4 0) (pt 0 3) = false.
Proof.
  apply (calc_triangles_cycle_valid shared_vertex_sets []
           (Triangle (pt 0 0) (pt 4 0) (pt 0 3))).
  vm_compute. by left.
Defined.

(** C3: for a point-set input whose number of segments fits in an
    [int], [calc_triangles] appends one triangle [(P, Q, R)] for exactly
    the cycles [(i, j, k, P, Q, R)] of the specification, [P], [Q] and
    [R] being told apart by their positions in the sets of segments [i],
    [j] and [k]: the list [found] holds every such cycle once, and
    nothing else. *)
Theorem calc_triangles_exactly_cycles (intersects : list (list point))
  (triangles : list triangle) :
  Z.of_nat (length intersects) <= INT_MAX ->
  exists found : list (cycle * triangle),
    NoDup found.*1
    /\ (forall c t, (c, t) ∈ found <-> closes intersects c t)
    /\ calc_triangles intersects triangles = triangles ++ found.*2.
Proof.
  intros Hfit. exists (cycles_from intersects). split_and!.
  - apply NoDup_cycles_from.
  - intros c t. split; [apply cycles_from_closes|by apply closes_cycles_from].
  - apply calc_triangles_cycles.
Qed.

Lemma calc_triangles_exactly_cycles_witness :
  exists found : list (cycle * triangle),
    NoDup found.*1
    /\ (forall c t, (c, t) ∈ found <-> closes shared_vertex_sets c t)
    /\ calc_triangles shared_vertex_sets [] = [] ++ found.*2.
Proof.
  apply (calc_triangles_exactly_cycles shared_vertex_sets []).
  unfold INT_MAX. cbn. lia.
Defined.

(** * The claims about the intersection aggregator *)

(** C4: with a sequence in [intersects] for every segment (and the
    number of segments within the range of [int]),
    [calc_intersections] visits every pair of indices [i < j] exactly
    once, and for each pair does what [record_pair] says: when the two
    segments intersect at [P], it appends [P] to segment [i]'s sequence
    and to segment [j]'s sequence, in each case unless an approximately
    equal point is already there.  The result is indexed as the input
    is: it has as many sequences as [intersects] had, which in the
    pipeline is the number of segments. *)
Theorem calc_intersections_every_pair_once (segments : list line_segment)
  (intersects : list (list point)) :
  (length segments <= length intersects)%nat ->
  Z.of_nat (length segments) <= INT_MAX ->
  exists (pairs : list (Z * Z)) (result : list (list point)),
    NoDup pairs
    /\ (forall i j : Z,
         (i, j) ∈ pairs <-> 0 <= i < j /\ j < Z.of_nat (length segments))
    /\ calc_intersections segments intersects = Some result
    /\ result = foldl (record_pair segments) intersects pairs
    /\ length result = length intersects.
Proof.
  intros Hlen Hfit%static_cast_int_fits.
  exists (index_pairs (Z.of_nat (length segments))),
    (foldl (record_pair segments) intersects
       (index_pairs (Z.of_nat (length segments)))).
  split_and!.
  - apply NoDup_index_pairs.
  - intros i j. apply elem_of_index_pairs.
  - rewrite calc_intersections_record by done. by rewrite Hfit.
  - done.
  - apply length_foldl_record_pair.
Qed.

Lemma calc_intersections_every_pair_once_witness :
  exists (pairs : list (Z * Z)) (result : list (list point)),
    NoDup pairs
    /\ (forall i j : Z, (i, j) ∈ pairs <-> 0 <= i < j /\ j < 3)
    /\ calc_intersections three_sides [[]; []; []] = Some result
    /\ result = foldl (record_pair three_sides) [[]; []; []] pairs
    /\ length result = 3%nat.
Proof.
  apply (calc_intersections_every_pair_once three_sides [[]; []; []]).
  - cbn. lia.
  - unfold INT_MAX. cbn. lia.
Defined.

(** C5: the aggregation of the pipeline succeeds, and in its result the
    points of every segment's sequence are pairwise not approximately
    equal: at two distinct positions the difference of the [x]
    coordinates or that of the [y] coordinates is not below the
    tolerance.  This is the effect of the rule that a point
    approximately equal to one already stored in a segment's sequence
    is not appended to it. *)
Theorem aggregated_points_distinct (segments : list line_segment) :
  exists result : list (list point),
    calc_intersections segments (replicate (length segments) [])
    = Some result
    /\ length result = length segments
    /\ forall (i : nat) (row : list point),
        result !! i = Some row ->
        (forall (a b : nat) (P Q : point),
           row !! a = Some P -> row !! b = Some Q -> a <> b ->
           point_eq P Q = false
           /\ (ltb (to_double (abs (sub (x P) (x Q)))) compare_tolerance
               = false
               \/ ltb (to_double (abs (sub (y P) (y Q)))) compare_tolerance
                  = false))
        /\ (forall (a : nat) (P Q : point),
              row !! a = Some P -> point_eq P Q = true ->
              push_back_if_absent result (Z.of_nat i) Q = Some result).
Proof.
  eexists. split.
  { apply calc_intersections_record. by rewrite length_replicate. }
  split; [by rewrite length_foldl_record_pair, length_replicate|].
  pose proof (foldl_record_pair_distinct segments
                (index_pairs (static_cast_int (length segments)))
                (replicate (length segments) [])
                (Forall_replicate _ _ _ distinct_points_nil)) as Hall.
  intros i row Hrow. split.
  - intros a b P Q Ha Hb Hab.
    pose proof (proj1 (Forall_lookup _ _) Hall i row Hrow a b P Q Ha Hb Hab)
      as Hne.
    split; [done|]. by apply andb_false_iff.
  - intros a P Q Ha HPQ. unfold push_back_if_absent.
    rewrite Nat2Z.id, Hrow. cbn.
    replace (find_point row Q) with true; [done|].
    symmetry. apply find_point_true. by exists a, P.
Qed.

(** * The claims about the whole pipeline *)

Lemma calc_triangles_segments_eq (segments : list line_segment)
  (triangles : list triangle) :
  exists intersects : list (list point),
    calc_intersections segments (replicate (length segments) [])
    = Some intersects
    /\ length intersects = length segments
    /\ calc_triangles_segments segments triangles
       = Some (static_cast_int
                 (length (triangles ++ (cycles_from intersects).*2)),
               triangles ++ (cycles_from intersects).*2).
Proof.
  eexists. split.
  { apply calc_intersections_record. by rewrite length_replicate. }
  split.
  - by rewrite length_foldl_record_pair, length_replicate.
  - unfold calc_triangles_segments.
    rewrite calc_intersections_record by (by rewrite length_replicate).
    cbn.
    by rewrite calc_triangles_cycles.
Qed.

(** C8: fewer than three segments give no triangle: the pipeline
    leaves [triangles] as it was. *)
Theorem fewer_than_three_segments (segments : list line_segment)
  (triangles : list triangle) :
  (length segments < 3)%nat ->
  calc_triangles_segments segments triangles
  = Some (static_cast_int (length triangles), triangles).
Proof.
  intros Hfew.
  destruct (calc_triangles_segments_eq segments triangles)
    as (intersects & _ & Hlen & ->).
  assert (Hnone : cycles_from intersects = []).
  { unfold cycles_from. rewrite seqZ_nil; [done|].
    pose proof (static_cast_int_le (length intersects)). lia. }
  by rewrite Hnone, app_nil_r.
Qed.

Lemma fewer_than_three_segments_witness :
  calc_triangles_segments two_crossing [] = Some (0, []).
Proof.
  apply (fewer_than_three_segments two_crossing []). cbn. lia.
Defined.



(** The run of [main]: 27 triangles on the twelve segments. *)
Example main_finds_27_triangles :
  fst <$> calc_triangles_segments line_segments [] = Some 27.
Proof. by vm_compute. Qed.

(** The three sides of a triangle give that triangle, once. *)
Example three_sides_one_triangle :
  calc_triangles_segments three_sides []
  = Some (1, [Triangle (pt 0 0) (pt 4 0) (pt 0 3)]).
Proof. by vm_compute. Qed.

(** [calc_triangles] compares the second vertex with the first and the
    third with the second, not the third with the first: on overlapping
    collinear segments the pipeline emits [(4,0), (8,0), (4,0)]. *)
Example overlapping_segments_repeat_vertex :
  calc_triangles_segments overlapping_segments []
  = Some (2, [ Triangle (pt 4 0) (pt 8 0) (pt 4 0);
               Triangle (pt 4 0) (pt 8 0) (pt 2 0) ]).
Proof. by vm_compute. Qed.

(** * The claims about the intersection of two segments *)

(** [calc_intersection] by cases on its three quantities. *)
Lemma calc_intersection_unfold (A B C D pt : point) :
  calc_intersection A B C D pt
  = if ltb (to_double (abs (denominator A B C D))) compare_tolerance
    then (false, origin)
    else if outside_unit (param_t A B C D) || outside_unit (param_u A B C D)
         then (false, origin)
         else (true, point_at A B (param_t A B C D)).
Proof.
  unfold calc_intersection, denominator, param_t, param_u, outside_unit,
    point_at, origin.
  destruct (ltb (to_double (abs _)) compare_tolerance); [done|].
  destruct (ltb _ (of_int 0) || ltb (of_int 1) _); [done|].
  cbn [orb]. by destruct (ltb _ (of_int 0) || ltb (of_int 1) _).
Qed.

(** C2: [calc_intersection] returns no point when the absolute value of
    the denominator is below the tolerance; it returns no point when
    [t] or [u] lies outside [[0, 1]]; otherwise it returns exactly the
    point [A + t (B - A)]. *)
Theorem calc_intersection_cases (A B C D pt : point) :
  calc_intersection A B C D pt
  = if ltb (to_double (abs (denominator A B C D))) compare_tolerance
    then (false, origin)
    else if outside_unit (param_t A B C D) || outside_unit (param_u A B C D)
         then (false, origin)
         else (true,
               Point (add (x A) (mul (param_t A B C D) (sub (x B) (x A))))
                     (add (y A) (mul (param_t A B C D) (sub (y B) (y A))))).
Proof.
  unfold calc_intersection, denominator, param_t, param_u, outside_unit,
    origin.
  destruct (ltb (to_double (abs _)) compare_tolerance) eqn:Hparallel;
    [done|].
  destruct (ltb _ (of_int 0) || ltb (of_int 1) _) eqn:Ht; [done|].
  cbn [orb]. by destruct (ltb _ (of_int 0) || ltb (of_int 1) _) eqn:Hu.
Qed.

(** C9: whenever [calc_intersection] returns [false], the output
    parameter holds [(0, 0)], whatever it held before the call. *)
Theorem calc_intersection_false_resets (A B C D pt : point) :
  (calc_intersection A B C D pt).1 = false ->
  (calc_intersection A B C D pt).2 = Point (of_int 0) (of_int 0).
Proof.
  rewrite calc_intersection_unfold.
  destruct (ltb (to_double (abs _)) compare_tolerance); [done|].
  by destruct (outside_unit _ || outside_unit _).
Qed.

Lemma calc_intersection_false_resets_witness :
  (calc_intersection (pt 0 0) (pt 2 2) (pt 0 1) (pt 2 3) (pt 7 7)).2
  = Point (of_int 0) (of_int 0).
Proof.
  apply (calc_intersection_false_resets
           (pt 0 0) (pt 2 2) (pt 0 1) (pt 2 3) (pt 7 7)).
  reflexivity.
Defined.

Lemma on_boundary_inside (t : float) :
  on_boundary t = true -> outside_unit t = false.
Proof.
  unfold on_boundary, outside_unit.
  intros [H%Float32Facts.eqb_zero_ltb|H%Float32Facts.eqb_one_ltb]%orb_true_iff;
    destruct H as [-> ->]; done.
Qed.

(** C7, as stated, fails.  The segment from [(0,0)] to [(2^-10,0)] and
    the segment from [(2^-10,-2^-10)] to [(2^-10,2^-10)] are
    perpendicular, and the first one ends on the second one: the
    denominator is [2^-19], not zero, [t] is exactly 1 and [u] is
    exactly 1/2.  But [2^-19] is below the tolerance, so the test of the
    denominator takes the two short segments for parallel, and
    [calc_intersection] returns [false]. *)
Lemma short_touching_segments_rejected :
  let A := Point (of_int 0) (of_int 0) in
  let B := Point (two_pow (-10)) (of_int 0) in
  let C := Point (two_pow (-10)) (opp (two_pow (-10))) in
  let D := Point (two_pow (-10)) (two_pow (-10)) in
  denominator A B C D = two_pow (-19)
  /\ nonparallel A B C D = true
  /\ param_t A B C D = of_int 1
  /\ param_u A B C D = two_pow (-1)
  /\ on_boundary (param_t A B C D) = true
  /\ outside_unit (param_u A B C D) = false
  /\ calc_intersection A B C D origin = (false, origin).
Proof. by vm_compute. Qed.

(** C7, amended: two segments whose denominator is not below the
    tolerance in absolute value (the test by which [calc_intersection]
    decides that segments are parallel) and that touch at an endpoint
    of one of them, that is, one parameter is exactly 0 or exactly 1 and
    the other one is not outside [[0, 1]], are reported as
    intersecting. *)
Theorem touching_segments_intersect (A B C D pt : point) :
  ltb (to_double (abs (denominator A B C D))) compare_tolerance = false ->
  (on_boundary (param_t A B C D) = true
   /\ outside_unit (param_u A B C D) = false)
  \/ (on_boundary (param_u A B C D) = true
      /\ outside_unit (param_t A B C D) = false) ->
  calc_intersection A B C D pt
  = (true, point_at A B (param_t A B C D)).
Proof.
  intros Hden Htouch. rewrite calc_intersection_unfold, Hden.
  destruct Htouch as [[Ht%on_boundary_inside Hu]|[Hu%on_boundary_inside Ht]];
    by rewrite Ht, Hu.
Qed.

Lemma touching_segments_intersect_witness :
  calc_intersection (pt 0 0) (pt 4 0) (pt 4 (-1)) (pt 4 3) (pt 7 7)
  = (true, pt 4 0).
Proof.
  apply (touching_segments_intersect
           (pt 0 0) (pt 4 0) (pt 4 (-1)) (pt 4 3) (pt 7 7)).
  - reflexivity.
  - left. split; reflexivity.
Defined.

(** Swapping the two segments negates the denominator and exchanges the
    two parameters. *)
Lemma denominator_swap (A B C D : point) :
  same (denominator C D A B) (opp (denominator A B C D)).
Proof.
  unfold denominator.
  rewrite (Float32Facts.mul_comm (sub (x C) (x D))).
  rewrite (Float32Facts.mul_comm (sub (y C) (y D))).
  apply Float32Facts.sub_antisym.
Qed.

Lemma cross_swap (a a' b c c' d : float) :
  same a' (opp a) -> same c' (opp c) ->
  same (sub (mul a' b) (mul c' d)) (opp (sub (mul a b) (mul c d))).
Proof.
  intros Ha Hc.
  eapply Float32Facts.same_trans; [|apply Float32Facts.sub_opp_opp].
  rewrite <- !Float32Facts.mul_opp_l.
  apply Float32Facts.sub_same; by apply Float32Facts.mul_same_l.
Qed.

Lemma quotient_swap (n n' d d' : float) :
  ltb (to_double (abs d)) compare_tolerance = false ->
  same n' (opp n) -> same d' (opp d) -> same (div n' d') (div n d).
Proof.
  intros Hd Hn Hd'.
  assert (d' = opp d) as ->.
  { apply Float32Facts.same_not_small; [|done].
    by rewrite Float32Facts.abs_opp. }
  rewrite <- (Float32Facts.div_opp_opp n d).
  by apply Float32Facts.div_same_l.
Qed.

Lemma params_swap (A B C D : point) :
  ltb (to_double (abs (denominator A B C D))) compare_tolerance = false ->
  same (param_t C D A B) (param_u A B C D)
  /\ same (param_u C D A B) (param_t A B C D).
Proof.
  intros Hden. unfold param_t, param_u.
  split; (apply quotient_swap; [done| |apply denominator_swap]);
    apply cross_swap; apply Float32Facts.sub_antisym.
Qed.

Lemma outside_unit_same (t t' : float) :
  same t t' -> outside_unit t = outside_unit t'.
Proof.
  intros Ht. unfold outside_unit.
  rewrite (Float32Facts.ltb_same t t' (of_int 0) (of_int 0)),
    (Float32Facts.ltb_same (of_int 1) (of_int 1) t t');
    done || apply Float32Facts.same_refl.
Qed.

(** C6, as stated, fails.  The segment from [(0,0)] to [(259,0)] and
    the segment from [(235,-1)] to [(235,1)] cross at [(235,0)].  Called
    with the second segment first, [calc_intersection] returns exactly
    that point; called with the first segment first, it returns
    [(235 + 2^-16, 0)], because [t = 235/259] is rounded and so is
    [t * 259].  The two points are [2^-16 > 1e-5] apart and are not
    approximately equal. *)
Lemma swapped_points_differ :
  calc_intersection (pt 0 0) (pt 259 0) (pt 235 (-1)) (pt 235 1) origin
  = (true, Point (S754_finite false 15400961 (-16)) (of_int 0))
  /\ calc_intersection (pt 235 (-1)) (pt 235 1) (pt 0 0) (pt 259 0) origin
     = (true, pt 235 0)
  /\ point_eq (Point (S754_finite false 15400961 (-16)) (of_int 0))
       (pt 235 0) = false.
Proof. by vm_compute. Qed.

(** C6, amended: [calc_intersection(A, B, C, D)] and
    [calc_intersection(C, D, A, B)] agree on whether an intersection
    exists; and when the segments pass the parallelism test, the
    parameter [t] of either call is the parameter [u] of the other one
    (up to the sign of a zero). *)
Theorem calc_intersection_swap_agree (A B C D pt pt' : point) :
  (calc_intersection A B C D pt).1 = (calc_intersection C D A B pt').1
  /\ (ltb (to_double (abs (denominator A B C D))) compare_tolerance = false ->
      same (param_t C D A B) (param_u A B C D)
      /\ same (param_u C D A B) (param_t A B C D)).
Proof.
  split; [|apply params_swap].
  rewrite !calc_intersection_unfold.
  rewrite (Float32Facts.abs_same _ _ (denominator_swap A B C D)),
    Float32Facts.abs_opp.
  destruct (ltb (to_double (abs (denominator A B C D))) compare_tolerance)
    eqn:Hden; [done|].
  destruct (params_swap A B C D Hden) as [Ht Hu].
  rewrite (outside_unit_same _ _ Ht), (outside_unit_same _ _ Hu).
  rewrite (orb_comm (outside_unit (param_u A B C D))).
  by destruct (outside_unit _ || outside_unit _).
Qed.

Lemma calc_intersection_swap_agree_witness :
  (calc_intersection (pt 0 0) (pt 259 0) (pt 235 (-1)) (pt 235 1) origin).1
  = (calc_intersection (pt 235 (-1)) (pt 235 1) (pt 0 0) (pt 259 0) origin).1
  /\ (ltb (to_double
             (abs (denominator (pt 0 0) (pt 259 0) (pt 235 (-1)) (pt 235 1))))
        compare_tolerance = false ->
      same (param_t (pt 235 (-1)) (pt 235 1) (pt 0 0) (pt 259 0))
           (param_u (pt 0 0) (pt 259 0) (pt 235 (-1)) (pt 235 1))
      /\ same (param_u (pt 235 (-1)) (pt 235 1) (pt 0 0) (pt 259 0))
              (param_t (pt 0 0) (pt 259 0) (pt 235 (-1)) (pt 235 1))).
Proof.
  apply (calc_intersection_swap_agree
           (pt 0 0) (pt 259 0) (pt 235 (-1)) (pt 235 1) origin origin).
Defined.

(** * Further properties of the code *)

(** ** The approximate equality of points *)

Lemma sub_self_finite (a : float) :
  is_finite a = true -> sub a a = S754_zero false.
Proof.
  destruct a as [[]| | |s m e]; try done. intros _.
  unfold sub, SFsub. by rewrite Z.sub_diag.
Qed.

Lemma sub_not_finite (a b : float) :
  is_finite a = false ->
  ltb (to_double (abs (sub a b))) compare_tolerance = false.
Proof. destruct a as [|[]| |]; try done; by destruct b as [|[]| |]. Qed.

Lemma point_eq_refl_finite (P : point) :
  finite_point P = true -> point_eq P P = true.
Proof.
  unfold finite_point, point_eq. intros [Hx Hy]%andb_true_iff.
  by rewrite (sub_self_finite _ Hx), (sub_self_finite _ Hy).
Qed.

Lemma point_eq_not_finite (P Q : point) :
  finite_point P = false -> point_eq P Q = false.
Proof.
  unfold finite_point, point_eq. intros [Hx|Hy]%andb_false_iff.
  - by rewrite (sub_not_finite _ _ Hx).
  - rewrite (sub_not_finite _ _ Hy). apply andb_false_r.
Qed.

(** X1: [operator==] is symmetric, whatever the coordinates are. *)
Theorem point_eq_symmetric (P Q : point) : point_eq P Q = point_eq Q P.
Proof.
  unfold point_eq. f_equal; do 2 f_equal; apply Float32Facts.abs_sub_comm.
Qed.

(** X2: a point is approximately equal to itself exactly when both of
    its coordinates are finite; a point with an infinite or NaN
    coordinate is approximately equal to no point at all, on either
    side of [operator==]. *)
Theorem point_eq_reflexive_iff_finite (P : point) :
  (point_eq P P = true <-> finite_point P = true)
  /\ (finite_point P = false ->
      forall Q : point, point_eq P Q = false /\ point_eq Q P = false).
Proof.
  split.
  - split; [|apply point_eq_refl_finite].
    destruct (finite_point P) eqn:Hfin; [done|].
    by rewrite (point_eq_not_finite P P Hfin).
  - intros Hfin Q. rewrite (point_eq_sym Q P).
    by rewrite (point_eq_not_finite P Q Hfin).
Qed.

(** X3: [operator==] is not transitive: [(0,0)] and [(2^-17,0)] are
    approximately equal, so are [(2^-17,0)] and [(2^-16,0)], but
    [(0,0)] and [(2^-16,0)] are not. *)
Theorem point_eq_not_transitive :
  ~ (forall P Q R : point,
       point_eq P Q = true -> point_eq Q R = true -> point_eq P R = true).
Proof.
  intros Htrans.
  specialize (Htrans (pt 0 0)
                (Point (S754_finite false 8388608 (-40)) (of_int 0))
                (Point (S754_finite false 8388608 (-39)) (of_int 0))).
  by vm_compute in Htrans; specialize (Htrans eq_refl eq_refl).
Qed.

(** ** Adding a point to a segment's sequence *)

Lemma push_back_if_absent_Some (intersects result : list (list point))
  (i : Z) (pt : point) :
  push_back_if_absent intersects i pt = Some result ->
  (Z.to_nat i < length intersects)%nat
  /\ result = alter (add_unless_present pt) (Z.to_nat i) intersects.
Proof.
  intros Hpush.
  assert (Hi : (Z.to_nat i < length intersects)%nat).
  { apply lookup_lt_is_Some. unfold push_back_if_absent in Hpush.
    destruct (intersects !! Z.to_nat i); [by eexists|done]. }
  split; [done|].
  rewrite push_back_if_absent_alter in Hpush by done. by injection Hpush.
Qed.

Lemma find_point_add_unless_present (P : point) (row : list point) :
  finite_point P = true -> find_point (add_unless_present P row) P = true.
Proof.
  intros Hfin. unfold add_unless_present.
  destruct (find_point row P) eqn:Hfind; [done|].
  unfold find_point. rewrite existsb_app. cbn.
  by rewrite (point_eq_refl_finite P Hfin), orb_true_r.
Qed.

(** X4: adding a point with finite coordinates to segment [i]'s
    sequence makes [find_point] succeed on that sequence, keeps the
    number of sequences and leaves every other sequence alone. *)
Theorem push_back_then_find (intersects result : list (list point)) (i : Z)
  (pt : point) :
  push_back_if_absent intersects i pt = Some result ->
  finite_point pt = true ->
  find_point (points_of result i) pt = true
  /\ length result = length intersects
  /\ forall k : nat, k <> Z.to_nat i -> result !! k = intersects !! k.
Proof.
  intros [Hi ->]%push_back_if_absent_Some Hfin. split_and!.
  - unfold points_of. rewrite list_lookup_total_alter_eq by done.
    by apply find_point_add_unless_present.
  - apply length_alter.
  - intros k Hk. by apply list_lookup_alter_ne.
Qed.

Lemma push_back_then_find_witness :
  find_point (points_of [[pt 1 1]; [pt 2 2; pt 3 3]] 1) (pt 3 3) = true
  /\ length [[pt 1 1]; [pt 2 2; pt 3 3]] = length [[pt 1 1]; [pt 2 2]]
  /\ forall k : nat,
       k <> Z.to_nat 1 ->
       [[pt 1 1]; [pt 2 2; pt 3 3]] !! k = [[pt 1 1]; [pt 2 2]] !! k.
Proof.
  apply (push_back_then_find [[pt 1 1]; [pt 2 2]]
           [[pt 1 1]; [pt 2 2; pt 3 3]] 1 (pt 3 3)); reflexivity.
Defined.

(** X5: a point with an infinite or NaN coordinate is never found, so
    it is appended every time, also when the very same point is already
    stored. *)
Theorem push_back_not_finite_appends (intersects : list (list point))
  (i : Z) (row : list point) (pt : point) :
  finite_point pt = false ->
  intersects !! Z.to_nat i = Some row ->
  find_point row pt = false
  /\ push_back_if_absent intersects i pt
     = Some (<[Z.to_nat i := row ++ [pt]]> intersects).
Proof.
  intros Hfin Hrow.
  assert (Hfind : find_point row pt = false).
  { destruct (find_point row pt) eqn:Hfind; [|done].
    apply find_point_true in Hfind as (a & Q & _ & HQ).
    rewrite point_eq_sym, (point_eq_not_finite pt Q Hfin) in HQ. done. }
  split; [done|]. unfold push_back_if_absent. rewrite Hrow. cbn.
  by rewrite Hfind.
Qed.

Lemma push_back_not_finite_appends_witness :
  find_point [Point S754_nan (of_int 0)] (Point S754_nan (of_int 0)) = false
  /\ push_back_if_absent [[Point S754_nan (of_int 0)]] 0
       (Point S754_nan (of_int 0))
     = Some (<[Z.to_nat 0 := [Point S754_nan (of_int 0)]
                              ++ [Point S754_nan (of_int 0)]]>
               [[Point S754_nan (of_int 0)]]).
Proof.
  apply (push_back_not_finite_appends [[Point S754_nan (of_int 0)]] 0
           [Point S754_nan (of_int 0)] (Point S754_nan (of_int 0)));
    reflexivity.
Defined.

(** ** What the aggregator stores *)

Lemma foldl_option_None {St X : Type} (f : X -> St -> option St)
  (l : list X) :
  foldl (fun st i => st ≫= f i) None l = None.
Proof. by induction l. Qed.

(** A relation kept by every successful step of a loop over an
    optional state is kept by the loop. *)
Lemma foldl_option_related {St X : Type} (R : St -> St -> Prop)
  `{!Reflexive R, !Transitive R} (f : X -> St -> option St) (l : list X)
  (s s' : St) :
  (forall i u u', i ∈ l -> f i u = Some u' -> R u u') ->
  foldl (fun st i => st ≫= f i) (Some s) l = Some s' -> R s s'.
Proof.
  revert s. induction l as [|i l IH]; intros s Hstep Hrun.
  - by injection Hrun as ->.
  - cbn in Hrun. destruct (f i s) as [u|] eqn:Hi.
    + transitivity u; [apply (Hstep i); [by left|done]|].
      apply IH; [|done]. intros k v v' Hk. apply Hstep. by right.
    + by rewrite foldl_option_None in Hrun.
Qed.

(** What a successful run of the inner loop body did. *)
Lemma intersect_pair_Some (segments : list line_segment) (i j : Z)
  (intersects result : list (list point)) :
  intersect_pair segments i j intersects = Some result ->
  result = intersects
  \/ exists (ls1 ls2 : line_segment) (P : point),
       segments !! Z.to_nat i = Some ls1 /\ segments !! Z.to_nat j = Some ls2
       /\ calc_intersection_ls ls1 ls2 origin = (true, P)
       /\ (Z.to_nat i < length intersects)%nat
       /\ (Z.to_nat j < length intersects)%nat
       /\ result
          = alter (add_unless_present P) (Z.to_nat j)
              (alter (add_unless_present P) (Z.to_nat i) intersects).
Proof.
  unfold intersect_pair. change (Point (of_int 0) (of_int 0)) with origin.
  destruct (segments !! Z.to_nat i) as [ls1|]; [|done].
  destruct (segments !! Z.to_nat j) as [ls2|]; [|done]. cbn.
  destruct (calc_intersection_ls ls1 ls2 origin) as [[] P] eqn:Hfound.
  - destruct (push_back_if_absent intersects i P) as [u|] eqn:Hu; [|done].
    cbn. intros [Hj ->]%push_back_if_absent_Some.
    apply push_back_if_absent_Some in Hu as [Hi ->].
    rewrite length_alter in Hj. right. by exists ls1, ls2, P.
  - intros [= <-]. by left.
Qed.

Lemma prefix_add_unless_present (P : point) (row : list point) :
  row `prefix_of` add_unless_present P row.
Proof.
  unfold add_unless_present. destruct (find_point row P); [done|].
  by apply prefix_app_r.
Qed.

Lemma Forall2_prefix_alter (P : point) (k : nat)
  (intersects : list (list point)) :
  Forall2 prefix intersects (alter (add_unless_present P) k intersects).
Proof.
  apply Forall2_same_length_lookup. split; [by rewrite length_alter|].
  intros a row row' Hrow. rewrite list_lookup_alter.
  case_decide as Hk.
  - subst a. rewrite Hrow. intros [= <-]. apply prefix_add_unless_present.
  - rewrite Hrow. by intros [= <-].
Qed.

(** X6: the aggregator only appends: after [calc_intersections] every
    sequence starts with the points it held before the call, in the
    same order, and there are as many sequences as before. *)
Theorem calc_intersections_only_appends (segments : list line_segment)
  (intersects result : list (list point)) :
  calc_intersections segments intersects = Some result ->
  Forall2 prefix intersects result.
Proof.
  rewrite calc_intersections_pairs.
  apply (foldl_option_related (Forall2 prefix)
           (fun ij => intersect_pair segments ij.1 ij.2)).
  intros [i j] u u' _
    [->|(ls1 & ls2 & P & _ & _ & _ & _ & _ & ->)]%intersect_pair_Some;
    [done|].
  etrans; apply Forall2_prefix_alter.
Qed.

Lemma calc_intersections_only_appends_witness :
  Forall2 prefix [[pt 9 9]; []; []]
    [[pt 9 9; pt 0 0; pt 0 3]; [pt 0 0; pt 4 0]; [pt 0 3; pt 4 0]].
Proof.
  apply (calc_intersections_only_appends three_sides [[pt 9 9]; []; []]).
  reflexivity.
Defined.

Lemma elem_of_add_unless_present (P Q : point) (row : list point) :
  Q ∈ add_unless_present P row -> Q ∈ row \/ Q = P.
Proof.
  unfold add_unless_present. destruct (find_point row P); [by left|].
  intros [HQ|HQ%list_elem_of_singleton]%elem_of_app; [by left|by right].
Qed.

(** Every point of segment [i]'s sequence after [calc_intersections]
    either was in that sequence before, or is the point that
    [calc_intersection] returned for segment [i] and another segment. *)
Lemma stored_point_origin (segments : list line_segment)
  (intersects result : list (list point)) (i : nat) (row : list point)
  (P : point) :
  calc_intersections segments intersects = Some result ->
  result !! i = Some row ->
  P ∈ row ->
  (exists old : list point, intersects !! i = Some old /\ P ∈ old)
  \/ from_intersection segments i P.
Proof.
  rewrite calc_intersections_pairs. intros Hrun. revert i row P.
  set (R := fun u u' : list (list point) =>
    forall (i : nat) (row : list point) (P : point),
      u' !! i = Some row -> P ∈ row ->
      (exists old, u !! i = Some old /\ P ∈ old)
      \/ from_intersection segments i P).
  assert (HR : Reflexive R) by (intros u i row P Hrow HP; left; eauto).
  assert (HT : Transitive R).
  { intros u v w Huv Hvw i row P Hrow HP.
    destruct (Hvw i row P Hrow HP) as [(mid & Hmid & HPmid)|Hnew];
      [by apply (Huv i mid)|by right]. }
  apply (foldl_option_related R
           (fun ij => intersect_pair segments ij.1 ij.2) _ _ _) in Hrun;
    [done|].
  intros [a b] u u' [Ha Hb]%elem_of_index_pairs
    [->|(ls1 & ls2 & Q & Hls1 & Hls2 & HQ & Hlen_a & Hlen_b & ->)]
      %intersect_pair_Some;
    [apply HR|].
  cbn [fst snd] in *. intros i row P Hrow HP.
  rewrite !list_lookup_alter in Hrow.
  destruct (decide (Z.to_nat b = i)) as [<-|Hbi];
    [rewrite decide_False in Hrow by lia
    |destruct (decide (Z.to_nat a = i)) as [<-|Hai]];
    destruct (u !! _) as [old|] eqn:Hold; simplify_eq/=;
    try (left; by eauto);
    apply elem_of_add_unless_present in HP as [HP| ->];
    try (left; by eauto); right.
  - exists (Z.to_nat a), ls2, ls1. split_and!; [done..|].
    right. split; [lia|done].
  - exists (Z.to_nat b), ls1, ls2. split_and!; [done..|].
    left. split; [lia|done].
Qed.

(** X7: the aggregation of the pipeline stores nothing but
    intersection points: every point of segment [i]'s sequence is the
    point that [calc_intersection] returned for segment [i] and another
    segment. *)
Theorem aggregated_points_are_intersections (segments : list line_segment)
  (result : list (list point)) (i : nat) (row : list point) (P : point) :
  calc_intersections segments (replicate (length segments) []) = Some result ->
  result !! i = Some row ->
  P ∈ row ->
  from_intersection segments i P.
Proof.
  intros Hrun Hrow HP.
  destruct (stored_point_origin _ _ _ _ _ _ Hrun Hrow HP)
    as [(old & Hold & HPold)|Hnew]; [|done].
  apply lookup_replicate in Hold as [-> _]. by apply elem_of_nil in HPold.
Qed.

Lemma aggregated_points_are_intersections_witness :
  from_intersection three_sides 0 (pt 0 3).
Proof.
  apply (aggregated_points_are_intersections three_sides
           [[pt 0 0; pt 0 3]; [pt 0 0; pt 4 0]; [pt 0 3; pt 4 0]]
           0 [pt 0 0; pt 0 3] (pt 0 3)).
  - reflexivity.
  - reflexivity.
  - vm_compute. right. left.
Defined.

Lemma find_point_prefix (row row' : list point) (P : point) :
  row `prefix_of` row' -> find_point row P = true -> find_point row' P = true.
Proof.
  intros [more ->] Hfind. unfold find_point in *.
  by rewrite existsb_app, Hfind.
Qed.

Lemma Forall2_prefix_foldl_record_pair (segments : list line_segment)
  (pairs : list (Z * Z)) (intersects : list (list point)) :
  Forall2 prefix intersects (foldl (record_pair segments) intersects pairs).
Proof.
  revert intersects. induction pairs as [|ij pairs IH]; intros v; [done|].
  cbn [foldl]. etrans; [|apply IH]. unfold record_pair.
  destruct (segments !! Z.to_nat ij.1), (segments !! Z.to_nat ij.2);
    try done.
  destruct (calc_intersection_ls _ _ _) as [[] P]; [|done].
  etrans; apply Forall2_prefix_alter.
Qed.

(** X8: the aggregator misses no intersection: when
    [calc_intersection] returns a point [P] with finite coordinates for
    the segments [i < j], then after the aggregation of the pipeline
    [find_point] finds [P] in segment [i]'s sequence and in segment
    [j]'s sequence. *)
Theorem calc_intersections_records_every_intersection
  (segments : list line_segment) (i j : nat) (ls_i ls_j : line_segment)
  (P : point) :
  Z.of_nat (length segments) <= INT_MAX ->
  segments !! i = Some ls_i ->
  segments !! j = Some ls_j ->
  (i < j)%nat ->
  calc_intersection_ls ls_i ls_j origin = (true, P) ->
  finite_point P = true ->
  exists result : list (list point),
    calc_intersections segments (replicate (length segments) [])
    = Some result
    /\ find_point (result !!! i) P = true
    /\ find_point (result !!! j) P = true.
Proof.
  intros Hfit Hi Hj Hij HP Hfin. eexists. split.
  { apply calc_intersections_record. by rewrite length_replicate. }
  rewrite static_cast_int_fits by done.
  pose proof (lookup_lt_Some _ _ _ Hi) as Hilen.
  pose proof (lookup_lt_Some _ _ _ Hj) as Hjlen.
  destruct (list_elem_of_split (index_pairs (Z.of_nat (length segments)))
              (Z.of_nat i, Z.of_nat j)) as (before & after & ->).
  { apply elem_of_index_pairs. lia. }
  rewrite foldl_app. cbn [foldl].
  set (u := foldl (record_pair segments) (replicate (length segments) [])
              before).
  assert (Hu : length u = length segments).
  { unfold u. by rewrite length_foldl_record_pair, length_replicate. }
  set (v := record_pair segments u (Z.of_nat i, Z.of_nat j)).
  assert (Hv : v = alter (add_unless_present P) j
                     (alter (add_unless_present P) i u)).
  { unfold v, record_pair. cbn [fst snd]. rewrite !Nat2Z.id, Hi, Hj.
    change (Point (of_int 0) (of_int 0)) with origin. by rewrite HP. }
  pose proof (Forall2_prefix_foldl_record_pair segments after v) as Hgrow.
  assert (Hrow : forall k : nat,
    (k < length segments)%nat ->
    find_point (v !!! k) P = true ->
    find_point (foldl (record_pair segments) v after !!! k) P = true).
  { intros k Hk. apply find_point_prefix.
    destruct (lookup_lt_is_Some_2 v k) as [row Hrow].
    { rewrite Hv, !length_alter. lia. }
    destruct (Forall2_lookup_l _ _ _ _ _ Hgrow Hrow) as (row' & Hrow' & Hpre).
    by rewrite (list_lookup_total_correct _ _ _ Hrow),
      (list_lookup_total_correct _ _ _ Hrow'). }
  split; (apply Hrow; [done|]); rewrite Hv.
  - rewrite list_lookup_total_alter_ne by lia.
    rewrite list_lookup_total_alter_eq by lia.
    by apply find_point_add_unless_present.
  - rewrite list_lookup_total_alter_eq by (rewrite length_alter; lia).
    by apply find_point_add_unless_present.
Qed.

Lemma calc_intersections_records_every_intersection_witness :
  exists result : list (list point),
    calc_intersections three_sides (replicate (length three_sides) [])
    = Some result
    /\ find_point (result !!! 0%nat) (pt 0 3) = true
    /\ find_point (result !!! 2%nat) (pt 0 3) = true.
Proof.
  apply (calc_intersections_records_every_intersection three_sides 0 2
           (seg 0 (-1) 0 4) (seg 8 (-3) (-4) 6) (pt 0 3)).
  - unfold INT_MAX. cbn. lia.
  - reflexivity.
  - reflexivity.
  - lia.
  - reflexivity.
  - reflexivity.
Defined.

Lemma length_add_unless_present (P : point) (row : list point) :
  (length (add_unless_present P row) <= S (length row))%nat.
Proof.
  unfold add_unless_present. destruct (find_point row P); [lia|].
  rewrite length_app. cbn. lia.
Qed.

Lemma length_alter_add_row (P : point) (k i : nat)
  (intersects : list (list point)) :
  (length (alter (add_unless_present P) k intersects !!! i)
   <= length (intersects !!! i) + (if decide (k = i) then 1 else 0))%nat.
Proof.
  rewrite list_lookup_total_alter.
  destruct (decide (k = i)) as [->|Hk].
  - case_decide; [|lia].
    pose proof (length_add_unless_present P (intersects !!! i)). lia.
  - rewrite decide_False by tauto. lia.
Qed.

(** Segment [i]'s sequence grows by at most one point for every pair
    that has [i] as one of its two (distinct) indices. *)
Lemma length_foldl_record_pair_row (segments : list line_segment) (i : nat)
  (pairs : list (Z * Z)) (intersects : list (list point)) :
  (forall a b, (a, b) ∈ pairs -> 0 <= a < b) ->
  (length (foldl (record_pair segments) intersects pairs !!! i)
   <= length (intersects !!! i)
      + length (filter (fun ij : Z * Z =>
                          ij.1 = Z.of_nat i \/ ij.2 = Z.of_nat i) pairs))%nat.
Proof.
  revert intersects.
  induction pairs as [|[a b] pairs IH]; intros v Hpairs; [cbn; lia|].
  cbn [foldl]. etrans; [apply IH; intros; apply Hpairs; by right|].
  destruct (Hpairs a b) as [Ha Hab]; [by left|].
  assert (Hstep :
    (length (record_pair segments v (a, b) !!! i)
     <= length (v !!! i)
        + (if decide (a = Z.of_nat i \/ b = Z.of_nat i) then 1 else 0))%nat).
  { unfold record_pair. cbn [fst snd].
    destruct (segments !! Z.to_nat a), (segments !! Z.to_nat b); try lia.
    destruct (calc_intersection_ls _ _ _) as [[] P]; [|lia].
    pose proof (length_alter_add_row P (Z.to_nat b) i
                  (alter (add_unless_present P) (Z.to_nat a) v)).
    pose proof (length_alter_add_row P (Z.to_nat a) i v).
    repeat case_decide; lia. }
  rewrite filter_cons. cbn [fst snd].
  destruct (decide (a = Z.of_nat i \/ b = Z.of_nat i)); cbn [length]; lia.
Qed.

(** Among the pairs [0 <= a < b < n] fewer than [n] have a given index
    as a component. *)
Lemma length_index_pairs_touching (n : Z) (i : nat) :
  0 < n ->
  (length (filter (fun ij : Z * Z =>
                     ij.1 = Z.of_nat i \/ ij.2 = Z.of_nat i)
             (index_pairs n)) < Z.to_nat n)%nat.
Proof.
  intros Hn.
  set (touching := filter _ (index_pairs n)).
  set (other := fun ij : Z * Z =>
    if decide (ij.1 = Z.of_nat i) then ij.2 else ij.1).
  destruct (decide (Z.of_nat i < n)) as [Hi|Hi].
  - assert (Hsub : Z.of_nat i :: (other <$> touching) ⊆+ seqZ 0 n).
    { apply NoDup_submseteq.
      - apply NoDup_cons. split.
        + intros ([a b] & Heq & [Hab Hin%elem_of_index_pairs]
                    %list_elem_of_filter)%list_elem_of_fmap.
          unfold other in Heq. cbn [fst snd] in *. case_decide; lia.
        + apply NoDup_fmap_2_strong;
            [|apply NoDup_filter, NoDup_index_pairs].
          intros [a b] [c d]
            [Hab Hin%elem_of_index_pairs]%list_elem_of_filter
            [Hcd Hin'%elem_of_index_pairs]%list_elem_of_filter.
          unfold other. cbn [fst snd] in *.
          repeat case_decide; intros ?; f_equal; lia.
      - intros k [->|([a b] & -> & [Hab Hin%elem_of_index_pairs]
                        %list_elem_of_filter)%list_elem_of_fmap]
                 %elem_of_cons; apply elem_of_seqZ; [lia|].
        unfold other. cbn [fst snd] in *. case_decide; lia. }
    apply submseteq_length in Hsub.
    rewrite length_seqZ in Hsub. cbn [length] in Hsub.
    rewrite length_fmap in Hsub. lia.
  - replace touching with (@nil (Z * Z)); [cbn; lia|].
    symmetry. apply elem_of_nil_inv.
    intros [a b] [Hab Hin%elem_of_index_pairs]%list_elem_of_filter.
    cbn [fst snd] in *. lia.
Qed.

(** X9: after the aggregation of the pipeline a segment's sequence
    holds fewer points than there are segments: at most one for each
    other segment. *)
Theorem aggregated_rows_bounded (segments : list line_segment) :
  exists result : list (list point),
    calc_intersections segments (replicate (length segments) [])
    = Some result
    /\ forall (i : nat) (row : list point),
        result !! i = Some row -> (length row < length segments)%nat.
Proof.
  eexists. split.
  { apply calc_intersections_record. by rewrite length_replicate. }
  intros i row Hrow.
  pose proof (lookup_lt_Some _ _ _ Hrow) as Hi.
  rewrite length_foldl_record_pair, length_replicate in Hi.
  apply list_lookup_total_correct in Hrow. subst row.
  set (n := static_cast_int (length segments)).
  pose proof (static_cast_int_le (length segments)) as Hn. fold n in Hn.
  pose proof (length_foldl_record_pair_row segments i (index_pairs n)
                (replicate (length segments) [])) as Hbound.
  rewrite lookup_total_replicate_2 in Hbound by done. cbn [length] in Hbound.
  destruct (decide (0 < n)) as [Hpos|Hneg].
  - pose proof (length_index_pairs_touching n i Hpos).
    assert (Hpairs : forall a b, (a, b) ∈ index_pairs n -> 0 <= a < b).
    { intros a b Hab%elem_of_index_pairs. lia. }
    specialize (Hbound Hpairs). lia.
  - replace (index_pairs n) with (@nil (Z * Z)).
    + cbn [foldl]. rewrite lookup_total_replicate_2 by done. cbn. lia.
    + unfold index_pairs. by rewrite seqZ_nil by lia.
Qed.

(** ** Degenerate and boundary cases of [calc_intersection] *)

Lemma mul_zero_finite (s : bool) (b : float) :
  is_finite b = true ->
  exists s' : bool,
    mul (S754_zero s) b = S754_zero s' /\ mul b (S754_zero s) = S754_zero s'.
Proof.
  destruct b as [sb| | |sb mb eb]; try done; intros _;
    exists (xorb s sb); split; cbn; [done|f_equal; apply xorb_comm..].
Qed.

Lemma zero_difference_small (s s' : bool) :
  ltb (to_double (abs (sub (S754_zero s) (S754_zero s')))) compare_tolerance
  = true.
Proof. by destruct s, s'. Qed.

(** X10: a segment of length zero is never reported to intersect
    anything: with [A = B] (finite coordinates) and the coordinate
    differences of the other segment finite, [calc_intersection] returns
    [false], whichever of the two segments is the degenerate one. *)
Theorem zero_length_segment_never_intersects (A C D pt : point) :
  finite_point A = true ->
  is_finite (sub (x C) (x D)) = true ->
  is_finite (sub (y C) (y D)) = true ->
  calc_intersection A A C D pt = (false, origin)
  /\ calc_intersection C D A A pt = (false, origin).
Proof.
  unfold finite_point. intros [HxA HyA]%andb_true_iff Hdx Hdy.
  destruct (mul_zero_finite false _ Hdx) as (sx & Hx1 & Hx2).
  destruct (mul_zero_finite false _ Hdy) as (sy & Hy1 & Hy2).
  split; rewrite calc_intersection_unfold; unfold denominator;
    rewrite !(sub_self_finite _ HxA), !(sub_self_finite _ HyA).
  - by rewrite Hy1, Hx1, zero_difference_small.
  - by rewrite Hx2, Hy2, zero_difference_small.
Qed.

Lemma zero_length_segment_never_intersects_witness :
  calc_intersection (pt 1 1) (pt 1 1) (pt 0 0) (pt 2 2) (pt 7 7)
  = (false, origin)
  /\ calc_intersection (pt 0 0) (pt 2 2) (pt 1 1) (pt 1 1) (pt 7 7)
     = (false, origin).
Proof.
  apply (zero_length_segment_never_intersects
           (pt 1 1) (pt 0 0) (pt 2 2) (pt 7 7)); reflexivity.
Defined.

(** X11: a segment does not intersect itself: [calc_intersection(A, B,
    A, B)] returns [false] (the denominator is zero), provided the
    product of the two coordinate differences does not overflow. *)
Theorem segment_never_intersects_itself (A B pt : point) :
  is_finite (mul (sub (x A) (x B)) (sub (y A) (y B))) = true ->
  calc_intersection A B A B pt = (false, origin).
Proof.
  intros Hfin. rewrite calc_intersection_unfold. unfold denominator.
  rewrite (Float32Facts.mul_comm (sub (y A) (y B))).
  by rewrite (sub_self_finite _ Hfin).
Qed.

Lemma segment_never_intersects_itself_witness :
  calc_intersection (pt 0 0) (pt 2 3) (pt 0 0) (pt 2 3) (pt 7 7)
  = (false, origin).
Proof.
  apply (segment_never_intersects_itself (pt 0 0) (pt 2 3) (pt 7 7)).
  reflexivity.
Defined.

Lemma eqb_zero_inv (t : float) :
  SFeqb t (of_int 0) = true -> exists s : bool, t = S754_zero s.
Proof. destruct t as [s|[]| |[] m e]; try done. by exists s. Qed.

Lemma add_zero_same (a : float) (s : bool) : same (add a (S754_zero s)) a.
Proof. by destruct a as [[]|[]| |[] m e], s. Qed.

(** X12: when the parameter [t] is exactly zero (the segments meet at
    the first endpoint of the first segment), the point returned is
    that endpoint [A] itself, up to the sign of a zero coordinate. *)
Theorem intersection_at_start_is_start (A B C D pt : point) :
  ltb (to_double (abs (denominator A B C D))) compare_tolerance = false ->
  SFeqb (param_t A B C D) (of_int 0) = true ->
  outside_unit (param_u A B C D) = false ->
  is_finite (sub (x B) (x A)) = true ->
  is_finite (sub (y B) (y A)) = true ->
  exists P : point,
    calc_intersection A B C D pt = (true, P)
    /\ same (x P) (x A) /\ same (y P) (y A).
Proof.
  intros Hden Ht Hu Hdx Hdy. rewrite calc_intersection_unfold, Hden, Hu.
  destruct (Float32Facts.eqb_zero_ltb _ Ht) as [Hlt0 Hlt1].
  unfold outside_unit at 1. rewrite Hlt0, Hlt1. cbn [orb].
  eexists. split; [done|]. unfold point_at. cbn [x y].
  destruct (eqb_zero_inv _ Ht) as [s ->].
  destruct (mul_zero_finite s _ Hdx) as (sx & -> & _).
  destruct (mul_zero_finite s _ Hdy) as (sy & -> & _).
  split; apply add_zero_same.
Qed.

Lemma intersection_at_start_is_start_witness :
  exists P : point,
    calc_intersection (pt 0 0) (pt 4 0) (pt 0 (-1)) (pt 0 3) (pt 7 7)
    = (true, P)
    /\ same (x P) (x (pt 0 0)) /\ same (y P) (y (pt 0 0)).
Proof.
  apply (intersection_at_start_is_start
           (pt 0 0) (pt 4 0) (pt 0 (-1)) (pt 0 3) (pt 7 7)); reflexivity.
Defined.

(** ** The pipeline on three segments *)

Lemma record_pair_found (segments : list line_segment)
  (intersects : list (list point)) (i j : nat) (ls_i ls_j : line_segment)
  (P : point) :
  segments !! i = Some ls_i -> segments !! j = Some ls_j ->
  calc_intersection_ls ls_i ls_j origin = (true, P) ->
  record_pair segments intersects (Z.of_nat i, Z.of_nat j)
  = alter (add_unless_present P) j (alter (add_unless_present P) i intersects).
Proof.
  intros Hi Hj HP. unfold record_pair. cbn [fst snd].
  rewrite !Nat2Z.id, Hi, Hj.
  change (Point (of_int 0) (of_int 0)) with origin. by rewrite HP.
Qed.

(** The pairs visited for three segments. *)
Lemma calc_intersections_three (s0 s1 s2 : line_segment) :
  calc_intersections [s0; s1; s2] (replicate 3%nat [])
  = Some
      (record_pair [s0; s1; s2]
         (record_pair [s0; s1; s2]
            (record_pair [s0; s1; s2] [[]; []; []] (Z.of_nat 0, Z.of_nat 1))
            (Z.of_nat 0, Z.of_nat 2))
         (Z.of_nat 1, Z.of_nat 2)).
Proof. by rewrite calc_intersections_record by done. Qed.

(** Case analysis on every comparison of two points that blocks the
    evaluation of the goal. *)
Ltac split_point_eq :=
  repeat (cbv -[point_eq];
          match goal with
          | |- context [point_eq ?a ?b] =>
              is_var a; is_var b; destruct (point_eq a b) eqn:?
          end).

(** Evaluation of the goal with the comparisons of points that the
    context knows. *)
Ltac eval_point_eq :=
  repeat (progress
            (cbv -[point_eq];
             repeat match goal with
               | H : point_eq ?a ?b = _ |- context [point_eq ?a ?b] =>
                   rewrite H
               end)).

(** X13: three segments that meet pairwise in three points (finite and
    pairwise not approximately equal) give exactly one triangle: the
    pipeline appends [(P01, P12, P02)], where [Pab] is the intersection
    of the segments [a] and [b], and nothing else. *)
Theorem three_segments_one_triangle (s0 s1 s2 : line_segment)
  (P01 P02 P12 : point) (triangles : list triangle) :
  calc_intersection_ls s0 s1 origin = (true, P01) ->
  calc_intersection_ls s0 s2 origin = (true, P02) ->
  calc_intersection_ls s1 s2 origin = (true, P12) ->
  finite_point P01 = true ->
  finite_point P02 = true ->
  finite_point P12 = true ->
  point_eq P01 P02 = false ->
  point_eq P01 P12 = false ->
  point_eq P02 P12 = false ->
  calc_triangles_segments [s0; s1; s2] triangles
  = Some (static_cast_int (length (triangles ++ [Triangle P01 P12 P02])),
          triangles ++ [Triangle P01 P12 P02]).
Proof.
  intros H01 H02 H12 F01%point_eq_refl_finite F02%point_eq_refl_finite
    F12%point_eq_refl_finite D0102 D0112 D0212.
  pose proof D0102 as D0201. rewrite point_eq_sym in D0201.
  pose proof D0112 as D1201. rewrite point_eq_sym in D1201.
  pose proof D0212 as D1202. rewrite point_eq_sym in D1202.
  unfold calc_triangles_segments.
  change (replicate (length [s0; s1; s2]) [])
    with (@replicate (list point) 3%nat []).
  rewrite calc_intersections_three.
  rewrite (record_pair_found _ _ 0%nat 1%nat s0 s1 P01) by done.
  rewrite (record_pair_found _ _ 0%nat 2%nat s0 s2 P02) by done.
  rewrite (record_pair_found _ _ 1%nat 2%nat s1 s2 P12) by done.
  cbn [mbind option_bind]. rewrite calc_triangles_cycles.
  assert (Hrows :
    alter (add_unless_present P12) 2%nat
      (alter (add_unless_present P12) 1%nat
         (alter (add_unless_present P02) 2%nat
            (alter (add_unless_present P02) 0%nat
               (alter (add_unless_present P01) 1%nat
                  (alter (add_unless_present P01) 0%nat [[]; []; []])))))
    = [[P01; P02]; [P01; P12]; [P02; P12]]).
  { eval_point_eq. reflexivity. }
  rewrite Hrows.
  assert (Hfound :
    snd <$> cycles_from [[P01; P02]; [P01; P12]; [P02; P12]]
    = [Triangle P01 P12 P02]).
  { eval_point_eq. reflexivity. }
  by rewrite Hfound.
Qed.

Lemma three_segments_one_triangle_witness :
  calc_triangles_segments
    [seg 0 (-1) 0 4; seg (-1) 0 5 0; seg 8 (-3) (-4) 6] []
  = Some (static_cast_int
            (length ([] ++ [Triangle (pt 0 0) (pt 4 0) (pt 0 3)])),
          [] ++ [Triangle (pt 0 0) (pt 4 0) (pt 0 3)]).
Proof.
  apply (three_segments_one_triangle
           (seg 0 (-1) 0 4) (seg (-1) 0 5 0) (seg 8 (-3) (-4) 6)
           (pt 0 0) (pt 0 3) (pt 4 0) []); reflexivity.
Defined.

(** X14: three segments through one common point give no triangle:
    when the three pairwise intersection points are approximately equal
    to one another, the pipeline leaves [triangles] as it was. *)
Theorem concurrent_segments_no_triangle (s0 s1 s2 : line_segment)
  (P01 P02 P12 : point) (triangles : list triangle) :
  calc_intersection_ls s0 s1 origin = (true, P01) ->
  calc_intersection_ls s0 s2 origin = (true, P02) ->
  calc_intersection_ls s1 s2 origin = (true, P12) ->
  point_eq P01 P02 = true ->
  point_eq P01 P12 = true ->
  point_eq P02 P12 = true ->
  calc_triangles_segments [s0; s1; s2] triangles
  = Some (static_cast_int (length triangles), triangles).
Proof.
  intros H01 H02 H12 E0102 E0112 E0212.
  unfold calc_triangles_segments.
  change (replicate (length [s0; s1; s2]) [])
    with (@replicate (list point) 3%nat []).
  rewrite calc_intersections_three.
  rewrite (record_pair_found _ _ 0%nat 1%nat s0 s1 P01) by done.
  rewrite (record_pair_found _ _ 0%nat 2%nat s0 s2 P02) by done.
  rewrite (record_pair_found _ _ 1%nat 2%nat s1 s2 P12) by done.
  cbn [mbind option_bind]. rewrite calc_triangles_cycles.
  assert (Hrows :
    alter (add_unless_present P12) 2%nat
      (alter (add_unless_present P12) 1%nat
         (alter (add_unless_present P02) 2%nat
            (alter (add_unless_present P02) 0%nat
               (alter (add_unless_present P01) 1%nat
                  (alter (add_unless_present P01) 0%nat [[]; []; []])))))
    = [[P01]; [P01]; [P02]]).
  { eval_point_eq. reflexivity. }
  rewrite Hrows.
  assert (Hfound : snd <$> cycles_from [[P01]; [P01]; [P02]] = []).
  { split_point_eq; reflexivity. }
  by rewrite Hfound, app_nil_r.
Qed.

Lemma concurrent_segments_no_triangle_witness :
  calc_triangles_segments [seg 0 0 2 2; seg 0 2 2 0; seg 1 0 1 2] []
  = Some (static_cast_int (length (@nil triangle)), []).
Proof.
  apply (concurrent_segments_no_triangle
           (seg 0 0 2 2) (seg 0 2 2 0) (seg 1 0 1 2)
           (pt 1 1) (pt 1 1) (pt 1 1) []); reflexivity.
Defined.

(** X15: three segments of which two do not intersect give no triangle,
    whatever the other intersections are. *)
Theorem open_chain_no_triangle (s0 s1 s2 : line_segment)
  (triangles : list triangle) :
  (calc_intersection_ls s0 s1 origin).1 = false
  \/ (calc_intersection_ls s0 s2 origin).1 = false
  \/ (calc_intersection_ls s1 s2 origin).1 = false ->
  calc_triangles_segments [s0; s1; s2] triangles
  = Some (static_cast_int (length triangles), triangles).
Proof.
  intros Hopen. unfold calc_triangles_segments.
  change (replicate (length [s0; s1; s2]) [])
    with (@replicate (list point) 3%nat []).
  rewrite calc_intersections_three.
  cbn [mbind option_bind]. rewrite calc_triangles_cycles.
  enough (Hnone :
    snd <$> cycles_from
      (record_pair [s0; s1; s2]
         (record_pair [s0; s1; s2]
            (record_pair [s0; s1; s2] [[]; []; []] (Z.of_nat 0, Z.of_nat 1))
            (Z.of_nat 0, Z.of_nat 2))
         (Z.of_nat 1, Z.of_nat 2)) = []).
  { by rewrite Hnone, app_nil_r. }
  unfold record_pair. cbn [fst snd]. rewrite !Nat2Z.id.
  cbn [lookup list_lookup]. change (Point (of_int 0) (of_int 0)) with origin.
  destruct (calc_intersection_ls s0 s1 origin) as [[] P01],
    (calc_intersection_ls s0 s2 origin) as [[] P02],
    (calc_intersection_ls s1 s2 origin) as [[] P12];
    cbn [fst] in Hopen; [by destruct Hopen as [?|[?|?]]|..];
    split_point_eq; reflexivity.
Qed.

Lemma open_chain_no_triangle_witness :
  calc_triangles_segments [seg 0 0 4 0; seg 0 1 4 1; seg 2 (-1) 2 2] []
  = Some (static_cast_int (length (@nil triangle)), []).
Proof.
  apply (open_chain_no_triangle
           (seg 0 0 4 0) (seg 0 1 4 1) (seg 2 (-1) 2 2) []).
  left. reflexivity.
Defined.

(** ** The vertices of the triangles of the pipeline *)

(** X16: the pipeline invents no vertex: each vertex of every triangle
    that it appends is the point that [calc_intersection] returned for
    two of the input segments. *)
Theorem pipeline_vertices_are_intersections (segments : list line_segment)
  (triangles final : list triangle) (n : Z) (t : triangle) (v : point) :
  calc_triangles_segments segments triangles = Some (n, final) ->
  t ∈ final ->
  v ∈ [p1 t; p2 t; p3 t] ->
  t ∈ triangles
  \/ exists (a b : nat) (ls_a ls_b : line_segment),
       (a < b)%nat
       /\ segments !! a = Some ls_a /\ segments !! b = Some ls_b
       /\ calc_intersection_ls ls_a ls_b origin = (true, v).
Proof.
  intros Hrun Ht Hv.
  destruct (calc_triangles_segments_eq segments triangles)
    as (intersects & Hagg & _ & Heq).
  rewrite Heq in Hrun. injection Hrun as _ <-.
  apply elem_of_app in Ht as [Hold|Hnew]; [by left|right].
  apply list_elem_of_fmap in Hnew as ([c t'] & -> & Hc%cycles_from_closes).
  destruct Hc as (_ & HP & _ & HQ & _ & _ & HR & _ & _). cbn [snd] in *.
  assert (Hstored : exists (i : nat) (row : list point),
    intersects !! i = Some row /\ v ∈ row).
  { assert (Hin : forall (i : Z) (a : nat) (P : point),
      points_of intersects i !! a = Some P ->
      exists (k : nat) (row : list point),
        intersects !! k = Some row /\ P ∈ row).
    { intros i a P Ha. exists (Z.to_nat i), (points_of intersects i).
      split; [|by eapply list_elem_of_lookup_2].
      unfold points_of in *. rewrite list_lookup_total_alt in *.
      destruct (intersects !! Z.to_nat i); [done|by destruct a]. }
    apply elem_of_cons in Hv as [->|Hv]; [by eapply Hin|].
    apply elem_of_cons in Hv as [->|Hv]; [by eapply Hin|].
    apply list_elem_of_singleton in Hv as ->. by eapply Hin. }
  destruct Hstored as (i & row & Hrow & Hvrow).
  destruct (stored_point_origin _ _ _ _ _ _ Hagg Hrow Hvrow)
    as [(old & Hold & Hvold)|(k & ls_i & ls_k & Hi & Hk & Hfrom)].
  - apply lookup_replicate in Hold as [-> _]. by apply elem_of_nil in Hvold.
  - destruct Hfrom as [[Hik Hfound]|[Hki Hfound]].
    + by exists i, k, ls_i, ls_k.
    + by exists k, i, ls_k, ls_i.
Qed.

Lemma pipeline_vertices_are_intersections_witness :
  Triangle (pt 0 0) (pt 4 0) (pt 0 3) ∈ @nil triangle
  \/ exists (a b : nat) (ls_a ls_b : line_segment),
       (a < b)%nat
       /\ three_sides !! a = Some ls_a /\ three_sides !! b = Some ls_b
       /\ calc_intersection_ls ls_a ls_b origin = (true, pt 4 0).
Proof.
  apply (pipeline_vertices_are_intersections three_sides []
           [Triangle (pt 0 0) (pt 4 0) (pt 0 3)] 1
           (Triangle (pt 0 0) (pt 4 0) (pt 0 3)) (pt 4 0)).
  - reflexivity.
  - by left.
  - cbn. right. left.
Defined.

(** ** The order in which triangles are emitted *)

Lemma StronglySorted_impl_elem {A : Type} (R R' : A -> A -> Prop)
  (l : list A) :
  (forall a b, a ∈ l -> b ∈ l -> R a b -> R' a b) ->
  StronglySorted R l -> StronglySorted R' l.
Proof.
  intros Himpl Hsorted. induction Hsorted as [|a l Hl IH Ha]; [constructor|].
  constructor.
  - apply IH. intros b c Hb Hc. apply Himpl; by right.
  - apply Forall_forall. intros b Hb. apply Himpl; [by left|by right|].
    by apply (proj1 (Forall_forall _ _) Ha).
Qed.

(** A concatenation of keyed lists is sorted by key first when the
    pieces come in the order of their keys and each one is sorted. *)
Lemma StronglySorted_bind_keys {X K V : Type} (tag : X -> Z) (proj : K -> Z)
  (R : K -> K -> Prop) (f : X -> list (K * V)) (l : list X) :
  StronglySorted (fun a b => tag a < tag b) l ->
  (forall i, i ∈ l -> StronglySorted (fun p q => R p.1 q.1) (f i)) ->
  (forall i, i ∈ l -> Forall (fun kv => proj kv.1 = tag i) (f i)) ->
  StronglySorted
    (fun p q => proj p.1 < proj q.1 \/ (proj p.1 = proj q.1 /\ R p.1 q.1))
    (l ≫= f).
Proof.
  intros Hl Hpiece Hkey.
  induction Hl as [|i l Hl IH Hi]; [constructor|].
  rewrite bind_cons. apply StronglySorted_app. split_and!.
  - intros p q Hp (k & Hq & Hk)%list_elem_of_bind. left.
    assert (Hin : i ∈ i :: l) by (by left).
    pose proof (proj1 (Forall_forall _ _) (Hkey i Hin) _ Hp) as E1.
    assert (Hin' : k ∈ i :: l) by (by right).
    pose proof (proj1 (Forall_forall _ _) (Hkey k Hin') _ Hq) as E2.
    pose proof (proj1 (Forall_forall _ _) Hi _ Hk) as Hlt.
    cbn beta in E1, E2, Hlt. lia.
  - assert (Hin : i ∈ i :: l) by (by left).
    apply (StronglySorted_impl_elem (fun p q => R p.1 q.1));
      [|by apply Hpiece].
    intros p q Hp Hq HR. right. split; [|done].
    pose proof (proj1 (Forall_forall _ _) (Hkey i Hin) _ Hp) as E1.
    pose proof (proj1 (Forall_forall _ _) (Hkey i Hin) _ Hq) as E2.
    cbn in E1, E2. congruence.
  - apply IH; intros; [apply Hpiece|apply Hkey]; by right.
Qed.

Lemma StronglySorted_seqZ (m n : Z) :
  StronglySorted (fun a b : Z => id a < id b) (seqZ m n).
Proof.
  destruct (decide (0 <= n)) as [Hn|Hn]; [|rewrite seqZ_nil by lia; constructor].
  rewrite <- (Z2Nat.id n) by done. clear Hn.
  generalize (Z.to_nat n) as k. intros k. revert m.
  induction k as [|k IH]; intros m; [constructor|].
  rewrite seqZ_cons by lia. constructor.
  - replace (Z.pred (Z.of_nat (S k))) with (Z.of_nat k) by lia. apply IH.
  - apply Forall_forall. intros b Hb%elem_of_seqZ. unfold id. lia.
Qed.

Lemma StronglySorted_indexed {A : Type} (l : list A) :
  StronglySorted
    (fun a b : nat * A => Z.of_nat a.1 < Z.of_nat b.1) (indexed l).
Proof.
  unfold indexed.
  assert (Hgen : forall h : nat -> nat,
    (forall a b, (a < b)%nat -> (h a < h b)%nat) ->
    StronglySorted (fun a b : nat * A => Z.of_nat a.1 < Z.of_nat b.1)
      (imap (fun a => pair (h a)) l)).
  { induction l as [|p l IH]; intros h Hmono; [constructor|].
    cbn [imap]. constructor.
    - apply (IH (h ∘ S)). intros a b Hab. apply Hmono. lia.
    - apply Forall_forall.
      intros [b q] (a & q' & [= -> ->] & _)%elem_of_lookup_imap.
      cbn. specialize (Hmono 0%nat (S a)). lia. }
  apply (Hgen id). by intros a b.
Qed.

(** The cycles are met in the order of the nested loops. *)
Lemma StronglySorted_cycles_from (intersects : list (list point)) :
  StronglySorted (fun p q : cycle * triangle => cycle_lt p.1 q.1)
    (cycles_from intersects).
Proof.
  set (after := fun (n : nat) (c d : cycle) =>
    lex_lt (drop n (cycle_key c)) (drop n (cycle_key d))).
  unfold cycles_from.
  apply (StronglySorted_bind_keys id seg_i (after 1%nat));
    [apply StronglySorted_seqZ| |intros; cycle_keys].
  intros i _.
  apply (StronglySorted_bind_keys (Z.of_nat ∘ fst) (Z.of_nat ∘ pos_P)
           (after 2%nat));
    [apply StronglySorted_indexed| |intros; cycle_keys].
  intros [a P] _.
  apply (StronglySorted_bind_keys id seg_j (after 3%nat));
    [apply StronglySorted_seqZ| |intros; cycle_keys].
  intros j _. destruct (negb _); [constructor|].
  apply (StronglySorted_bind_keys (Z.of_nat ∘ fst) (Z.of_nat ∘ pos_Q)
           (after 4%nat));
    [apply StronglySorted_indexed| |intros; cycle_keys].
  intros [b Q] _. destruct (point_eq _ _); [constructor|].
  apply (StronglySorted_bind_keys id seg_k (after 5%nat));
    [apply StronglySorted_seqZ| |intros; cycle_keys].
  intros k _. destruct (negb _); [constructor|].
  apply (StronglySorted_bind_keys (Z.of_nat ∘ fst) (Z.of_nat ∘ pos_R)
           (after 6%nat));
    [apply StronglySorted_indexed| |intros; cycle_keys].
  intros [d R] _. destruct (_ || _); repeat constructor.
Qed.

(** X17: [calc_triangles] emits the triangles in the order of its
    nested loops: the cycles they come from are strictly increasing in
    the lexicographic order of (segment [i], position of [P], segment
    [j], position of [Q], segment [k], position of [R]). *)
Theorem calc_triangles_emission_order (intersects : list (list point))
  (triangles : list triangle) :
  exists found : list (cycle * triangle),
    calc_triangles intersects triangles = triangles ++ found.*2
    /\ (forall c t, (c, t) ∈ found -> closes intersects c t)
    /\ StronglySorted (fun p q : cycle * triangle => cycle_lt p.1 q.1) found.
Proof.
  exists (cycles_from intersects). split_and!.
  - apply calc_triangles_cycles.
  - apply cycles_from_closes.
  - apply StronglySorted_cycles_from.
Qed.

(** ** Overflow in [calc_intersection] *)

Lemma div_nan_r (a : float) : div a S754_nan = S754_nan.
Proof. by destruct a. Qed.

Lemma add_nan_r (a : float) : add a S754_nan = S754_nan.
Proof. by destruct a. Qed.

(** X18: a NaN denominator is not caught by the parallelism test (no
    comparison with a NaN holds), nor are the NaN parameters caught by
    the range tests: [calc_intersection] then reports an intersection,
    at the point [(NaN, NaN)].  The witness is a pair of collinear
    segments with finite coordinates whose coordinate differences
    overflow. *)
Theorem nan_denominator_reports_nan_point (A B C D pt : point) :
  denominator A B C D = S754_nan ->
  calc_intersection A B C D pt = (true, Point S754_nan S754_nan).
Proof.
  intros Hden. rewrite calc_intersection_unfold.
  unfold param_t, param_u, point_at. rewrite Hden, !div_nan_r. cbn [mul SFmul].
  change (ltb (to_double (abs S754_nan)) compare_tolerance) with false.
  change (outside_unit S754_nan) with false. cbn [orb].
  by rewrite !add_nan_r.
Qed.

Lemma nan_denominator_reports_nan_point_witness :
  calc_intersection (pt (2 ^ 127) (2 ^ 127)) (pt (- 2 ^ 127) (- 2 ^ 127))
    (pt (-1) (-1)) (pt 1 1) origin
  = (true, Point S754_nan S754_nan).
Proof.
  apply (nan_denominator_reports_nan_point
           (pt (2 ^ 127) (2 ^ 127)) (pt (- 2 ^ 127) (- 2 ^ 127))
           (pt (-1) (-1)) (pt 1 1) origin).
  by vm_compute.
Defined.
